(** * Möbius strip geometry: a shallow embedding of the numerics and mesh code

    The TypeScript sources compute, from [{ radius, width, resolution }],
    - a grid of points on the strip, a surface-area and an edge-length
      estimate (functions [calculateMobiusPoint] ... [calculateMobiusStripData]);
    - the vertex, colour and index buffers of a triangle mesh
      ([generateMobiusGeometry]).

    Every JavaScript [number] operation of the sources is kept, in the order
    in which the source writes it, as an operation of the class [Number]
    below.  Results that only depend on the shape of the loops are proved for
    every instance of the class, so for the IEEE binary64 numbers of
    [binary64_Number] as well.  Values that depend on rounding are computed
    in binary64, for every [Math.sin] and [Math.cos] that take the values of
    a given table ([for_every_Math]).  Inequalities that hold with a margin
    are proved for the instance [R_Number], where a [number] is a real number
    and rounding is not modelled.

    The input handler of the parameter form ([handleInputChange]) and the
    effect of the scene component that replaces the geometry
    ([geometryEffect]) are modelled as well, the first on numbers that may
    be not-a-number or infinite, the second by passing the refs and the set
    of built and disposed geometries explicitly.

    [resolution] is an integer (the slider that produces it rounds it and
    clamps it to at least 10), so it is a [nat] here, the loop counters are
    [nat]s and [Math.floor(resolution / 5)] is the quotient [resolution / 5]. *)

From Stdlib Require Import PrimFloat String.
From Stdlib Require FloatOps FloatAxioms SpecFloat.
From Stdlib Require Import List Arith PeanoNat ZArith Lia QArith Reals Lra Psatz.
Import ListNotations.

Set Implicit Arguments.
Open Scope nat_scope.

(** ** JavaScript numbers *)

Class Number (F : Type) : Type := {
  lit : Q -> F;               (* a numeric literal of the source text *)
  ofNat : nat -> F;           (* the number that holds an integer counter *)
  add : F -> F -> F;
  sub : F -> F -> F;
  mul : F -> F -> F;
  div : F -> F -> F;
  neg : F -> F;
  Math_sqrt : F -> F;
  Math_abs : F -> F;
  Math_sin : F -> F;
  Math_cos : F -> F;
  Math_PI : F
}.

Declare Scope js_scope.
Delimit Scope js_scope with js.
Notation "a + b" := (add a b) : js_scope.
Notation "a - b" := (sub a b) : js_scope.
Notation "a * b" := (mul a b) : js_scope.
Notation "a / b" := (div a b) : js_scope.
Notation "- a" := (neg a) : js_scope.

(** ** Loops and arrays *)

(** [for_loop n i body s] runs [body i], [body (i+1)], ... for [n] rounds,
    threading the state [s]. *)
Fixpoint for_loop {S : Type} (n i : nat) (body : nat -> S -> S) (s : S) : S :=
  match n with
  | O => s
  | Datatypes.S n' => for_loop n' (Datatypes.S i) body (body i s)
  end.

(** [for (let i = lo; i < hi; i++) body] *)
Definition for_range {S : Type} (lo hi : nat) (body : nat -> S -> S) (s : S) : S :=
  for_loop (hi - lo) lo body s.

(** A JavaScript array: a slot that was never written is a hole ([None]). *)
Definition JSArray (A : Type) : Type := list (option A).

Fixpoint replace_at {A : Type} (l : list A) (i : nat) (x : A) : list A :=
  match l, i with
  | [], _ => []
  | _ :: t, O => x :: t
  | h :: t, Datatypes.S i' => h :: replace_at t i' x
  end.

(** [a[i] = x]: overwrites a slot inside the array, and otherwise grows the
    array up to index [i], leaving holes below it. *)
Definition arr_set {A : Type} (a : JSArray A) (i : nat) (x : A) : JSArray A :=
  if i <? length a then replace_at a i (Some x)
  else a ++ repeat None (i - length a) ++ [Some x].

(** [a[i]]: [None] stands for [undefined]. *)
Definition arr_get {A : Type} (a : JSArray A) (i : nat) : option A :=
  match nth_error a i with
  | Some (Some x) => Some x
  | _ => None
  end.

(** [a[i][j] = x]; on an undefined row JavaScript throws a [TypeError]. *)
Definition arr_set2 {A : Type} (a : JSArray (JSArray A)) (i j : nat) (x : A)
  : option (JSArray (JSArray A)) :=
  match arr_get a i with
  | Some row => Some (arr_set a i (arr_set row j x))
  | None => None
  end.

(** [Math.max(10, Math.floor(resolution / 5))] *)
Definition vSegmentsOf (resolution : nat) : nat := Nat.max 10 (resolution / 5).

(** ** The types of the sources *)

Record MobiusStripParams (F : Type) : Type := {
  radius : F;
  width : F;
  resolution : nat
}.

Record Point3D (F : Type) : Type := {
  x : F;
  y : F;
  z : F
}.

Record MobiusStripProperties (F : Type) : Type := {
  surfaceArea : F;
  edgeLength : F
}.

Record MobiusStripData (F : Type) : Type := {
  points : JSArray (JSArray (Point3D F));
  properties : MobiusStripProperties F
}.

(** ** The calculations *)

Section Calculations.
Context {F : Type} {num : Number F}.
Local Open Scope js_scope.

Definition calculateMobiusPoint (u v R : F) : Point3D F :=
  {| x := (R + v * Math_cos (u / lit 2)) * Math_cos u;
     y := (R + v * Math_cos (u / lit 2)) * Math_sin u;
     z := v * Math_sin (u / lit 2) |}.

Definition calculatePartialDerivatives (u v R : F) : Point3D F * Point3D F :=
  let du :=
    {| x := - (R + v * Math_cos (u / lit 2)) * Math_sin u
            - (v / lit 2) * Math_sin (u / lit 2) * Math_cos u;
       y := (R + v * Math_cos (u / lit 2)) * Math_cos u
            - (v / lit 2) * Math_sin (u / lit 2) * Math_sin u;
       z := (v / lit 2) * Math_cos (u / lit 2) |} in
  let dv :=
    {| x := Math_cos (u / lit 2) * Math_cos u;
       y := Math_cos (u / lit 2) * Math_sin u;
       z := Math_sin (u / lit 2) |} in
  (du, dv).

Definition crossProduct (a b : Point3D F) : Point3D F :=
  {| x := y a * z b - z a * y b;
     y := z a * x b - x a * z b;
     z := x a * y b - y a * x b |}.

Definition magnitude (v : Point3D F) : F :=
  Math_sqrt (x v * x v + y v * y v + z v * z v).

Definition distance (a b : Point3D F) : F :=
  let dx := x b - x a in
  let dy := y b - y a in
  let dz := z b - z a in
  Math_sqrt (dx * dx + dy * dy + dz * dz).

Definition calculateSurfaceArea (params : MobiusStripParams F) : F :=
  let radius := radius params in
  let width := width params in
  let resolution := resolution params in
  let uStep := (lit 2 * Math_PI) / ofNat resolution in
  let vStep := width / ofNat (vSegmentsOf resolution) in
  let area := lit 0 in
  for_range 0 resolution (fun i area =>
    let u := ofNat i * uStep in
    for_range 0 (vSegmentsOf resolution) (fun j area =>
      let v := ((ofNat j / ofNat (vSegmentsOf resolution)) - lit 0.5) * width in
      let '(du, dv) := calculatePartialDerivatives u v radius in
      let normal := crossProduct du dv in
      area + magnitude normal * uStep * vStep) area) area.

Definition calculateEdgeLength (params : MobiusStripParams F) : F :=
  let radius := radius params in
  let width := width params in
  let resolution := resolution params in
  let uStep := (lit 2 * Math_PI) / ofNat resolution in
  let length := lit 0 in
  let prevPoint := calculateMobiusPoint (lit 0) (width / lit 2) radius in
  fst (for_range 1 (resolution + 1) (fun i '(length, prevPoint) =>
    let u := ofNat i * uStep in
    let currentPoint := calculateMobiusPoint u (width / lit 2) radius in
    (length + distance prevPoint currentPoint, currentPoint))
    (length, prevPoint)).

(** The two nested loops that fill [points]; [None] is the [TypeError] of a
    write through an undefined row. *)
Definition fillPoints (params : MobiusStripParams F)
  : option (JSArray (JSArray (Point3D F))) :=
  let radius := radius params in
  let width := width params in
  let resolution := resolution params in
  let uStep := (lit 2 * Math_PI) / ofNat resolution in
  let vStep := width / ofNat (vSegmentsOf resolution) in
  for_range 0 (resolution + 1) (fun i st =>
    match st with
    | None => None
    | Some points =>
      let u := ofNat i * uStep in
      let points := arr_set points i [] in
      for_range 0 (vSegmentsOf resolution + 1) (fun j st =>
        match st with
        | None => None
        | Some points =>
          let v := ((ofNat j / ofNat (vSegmentsOf resolution)) - lit 0.5) * width in
          arr_set2 points i j (calculateMobiusPoint u v radius)
        end) (Some points)
    end) (Some []).

Definition calculateMobiusStripData (params : MobiusStripParams F)
  : option (MobiusStripData F) :=
  match fillPoints params with
  | None => None
  | Some points =>
    Some {| points := points;
            properties := {| surfaceArea := calculateSurfaceArea params;
                             edgeLength := calculateEdgeLength params |} |}
  end.

End Calculations.

(** ** The mesh *)

(** The three buffers that [generateMobiusGeometry] hands to the rendering
    library: [vertices] and [colors] hold three numbers per vertex, [indices]
    three vertex numbers per triangle.  What the library then does with them
    (32-bit attributes, vertex normals) is not part of the sources. *)
Record MeshBuffers (F : Type) : Type := {
  vertices : list F;
  colors : list F;
  indices : list nat
}.

Section Geometry.
Context {F : Type} {num : Number F}.
Local Open Scope js_scope.

Definition generateMobiusGeometry (params : MobiusStripParams F) : MeshBuffers F :=
  let radius := radius params in
  let width := width params in
  let resolution := resolution params in
  let uSegments := resolution in
  let vSegments := vSegmentsOf resolution in
  let '(vertices, colors) :=
    for_range 0 (uSegments + 1) (fun i st =>
      let u := (ofNat i / ofNat uSegments) * Math_PI * lit 2 in
      for_range 0 (vSegments + 1) (fun j '(vertices, colors) =>
        let v := ((ofNat j / ofNat vSegments) - lit 0.5) * width in
        let x := (radius + v * Math_cos (u / lit 2)) * Math_cos u in
        let y := (radius + v * Math_cos (u / lit 2)) * Math_sin u in
        let z := v * Math_sin (u / lit 2) in
        let vertices := vertices ++ [x; y; z] in
        let colorFactor := Math_abs v / (width / lit 2) in
        let colors := colors ++ [lit 0.2 + lit 0.3 * colorFactor;
                                 lit 0.8 - lit 0.2 * colorFactor;
                                 lit 0.6 + lit 0.2 * colorFactor] in
        (vertices, colors)) st) ([], []) in
  let indices :=
    for_range 0 uSegments (fun i indices =>
      for_range 0 vSegments (fun j indices =>
        let a := (i * (vSegments + 1) + j)%nat in
        let b := (a + 1)%nat in
        let c := (a + (vSegments + 1))%nat in
        let d := (c + 1)%nat in
        let indices := indices ++ [a; b; d] in
        indices ++ [a; d; c]) indices) [] in
  {| vertices := vertices; colors := colors; indices := indices |}.

End Geometry.

(** ** Reading the buffers *)

(** The vertex, and the colour, stored for vertex number [k]: slots [3k],
    [3k+1] and [3k+2] of the flat buffer. *)
Definition triple_at {A : Type} (l : list A) (k : nat) : option (A * A * A) :=
  match nth_error l (3 * k), nth_error l (3 * k + 1), nth_error l (3 * k + 2) with
  | Some a, Some b, Some c => Some (a, b, c)
  | _, _, _ => None
  end.

Definition vertexAt {F : Type} (g : MeshBuffers F) (k : nat) : option (Point3D F) :=
  match triple_at (vertices g) k with
  | Some (a, b, c) => Some {| x := a; y := b; z := c |}
  | None => None
  end.

Definition colorAt {F : Type} (g : MeshBuffers F) (k : nat) : option (F * F * F) :=
  triple_at (colors g) k.

(** The triangles of an index buffer: its entries taken three at a time. *)
Fixpoint triangles (l : list nat) : list (nat * nat * nat) :=
  match l with
  | a :: b :: c :: t => (a, b, c) :: triangles t
  | _ => []
  end.

(** The vertex numbers of a triangle. *)
Definition corners (t : nat * nat * nat) : list nat :=
  let '(a, b, c) := t in [a; b; c].

(** The entry of a grid at row [i], column [j]. *)
Definition gridAt {A : Type} (g : JSArray (JSArray A)) (i j : nat) : option A :=
  match arr_get g i with
  | Some row => arr_get row j
  | None => None
  end.

(** ** The specification's words *)

(** The cells [(i, j)], [i < n], [j < m], row by row. *)
Definition cells (n m : nat) : list (nat * nat) :=
  flat_map (fun i => map (pair i) (seq 0 m)) (seq 0 n).

(** Consecutive pairs of a list. *)
Definition segments {A : Type} (l : list A) : list (A * A) := combine l (tl l).

(** The two triangles of cell [(i, j)] of section 4.6. *)
Definition spec_cell_triangles (vSegments i j : nat) : list (nat * nat * nat) :=
  let a := i * (vSegments + 1) + j in
  let b := a + 1 in
  let c := a + vSegments + 1 in
  let d := c + 1 in
  [(a, b, d); (a, d, c)].

Section Specification.
Context {F : Type} {num : Number F}.
Local Open Scope js_scope.

(** A sum of numbers, accumulated from [0] in the order of the list. *)
Definition sum_list (l : list F) : F := fold_left add l (lit 0).

(** The parametrization of section 4.1:
    [r (u, v) = ((R + v cos (u/2)) cos u, (R + v cos (u/2)) sin u, v sin (u/2))]. *)
Definition spec_position (u v R : F) : Point3D F :=
  {| x := (R + v * Math_cos (u / lit 2)) * Math_cos u;
     y := (R + v * Math_cos (u / lit 2)) * Math_sin u;
     z := v * Math_sin (u / lit 2) |}.

(** The closed forms of the two partial derivatives of the parametrization. *)
Definition spec_dr_du (u v R : F) : Point3D F :=
  {| x := - (R + v * Math_cos (u / lit 2)) * Math_sin u
          - (v / lit 2) * Math_sin (u / lit 2) * Math_cos u;
     y := (R + v * Math_cos (u / lit 2)) * Math_cos u
          - (v / lit 2) * Math_sin (u / lit 2) * Math_sin u;
     z := (v / lit 2) * Math_cos (u / lit 2) |}.

Definition spec_dr_dv (u v R : F) : Point3D F :=
  {| x := Math_cos (u / lit 2) * Math_cos u;
     y := Math_cos (u / lit 2) * Math_sin u;
     z := Math_sin (u / lit 2) |}.

(** The cross product [a x b] and the Euclidean norm [|p|] of vectors of
    three-dimensional space, by their coordinate formulas. *)
Definition spec_cross (a b : Point3D F) : Point3D F :=
  {| x := y a * z b - z a * y b;
     y := z a * x b - x a * z b;
     z := x a * y b - y a * x b |}.

Definition spec_norm (p : Point3D F) : F :=
  Math_sqrt (x p * x p + y p * y p + z p * z p).

(** [|dr/du x dr/dv|] at [(u, v)] *)
Definition spec_area_element (u v R : F) : F :=
  spec_norm (spec_cross (spec_dr_du u v R) (spec_dr_dv u v R)).

(** The sample coordinates [u_i = i * (2 pi / resolution)] and
    [v_j = (j / vSegments - 0.5) * width]. *)
Definition spec_delta_u (params : MobiusStripParams F) : F :=
  (lit 2 * Math_PI) / ofNat (resolution params).

Definition spec_vSegments (params : MobiusStripParams F) : nat :=
  Nat.max 10 (resolution params / 5).

Definition spec_delta_v (params : MobiusStripParams F) : F :=
  width params / ofNat (spec_vSegments params).

Definition spec_u (params : MobiusStripParams F) (i : nat) : F :=
  ofNat i * spec_delta_u params.

Definition spec_v (params : MobiusStripParams F) (j : nat) : F :=
  ((ofNat j / ofNat (spec_vSegments params)) - lit 0.5) * width params.

(** The left-corner Riemann sum of section 4.3. *)
Definition spec_surface_area (params : MobiusStripParams F) : F :=
  sum_list
    (map (fun '(i, j) =>
            spec_area_element (spec_u params i) (spec_v params j) (radius params)
            * spec_delta_u params * spec_delta_v params)
         (cells (resolution params) (spec_vSegments params))).

(** The [resolution + 1] samples of the boundary curve [v = width / 2] of
    section 4.4, and the length of the polygon through them. *)
Definition spec_edge_samples (params : MobiusStripParams F) : list (Point3D F) :=
  map (fun i => spec_position (spec_u params i) (width params / lit 2)
                              (radius params))
      (seq 0 (resolution params + 1)).

(** The Euclidean distance between two points: the norm of their
    difference [b - a]. *)
Definition spec_distance (a b : Point3D F) : F :=
  spec_norm {| x := x b - x a; y := y b - y a; z := z b - z a |}.

Definition spec_edge_length (params : MobiusStripParams F) : F :=
  sum_list (map (fun '(a, b) => spec_distance a b)
                (segments (spec_edge_samples params))).

(** The colour gradient of section 4.6 at across-width coordinate [v]. *)
Definition spec_color (params : MobiusStripParams F) (v : F) : F * F * F :=
  let f := Math_abs v / (width params / lit 2) in
  (lit 0.2 + lit 0.3 * f, lit 0.8 - lit 0.2 * f, lit 0.6 + lit 0.2 * f).


(** The grid of section 3: row [i] holds the positions at [u_i], column [j]
    those at [v_j]; no slot is a hole. *)
Definition spec_grid (params : MobiusStripParams F) : JSArray (JSArray (Point3D F)) :=
  map (fun i =>
         Some (map (fun j =>
                      Some (calculateMobiusPoint (spec_u params i) (spec_v params j)
                                                 (radius params)))
                   (seq 0 (spec_vSegments params + 1))))
      (seq 0 (resolution params + 1)).


(** The angle at which [generateMobiusGeometry] samples row [i]. *)
Definition mesh_u (params : MobiusStripParams F) (i : nat) : F :=
  (ofNat i / ofNat (resolution params)) * Math_PI * lit 2.

(** What the two loops of [generateMobiusGeometry] leave in the buffers:
    row by row, for each vertex its three coordinates and its three colour
    components, and for each cell the corners of its two triangles. *)
Definition mesh_layout (params : MobiusStripParams F) : MeshBuffers F :=
  let n := resolution params in
  let m := spec_vSegments params in
  {| vertices :=
       flat_map (fun '(i, j) =>
                   let p := calculateMobiusPoint (mesh_u params i) (spec_v params j)
                                                 (radius params) in
                   [x p; y p; z p])
                (cells (n + 1)%nat (m + 1)%nat);
     colors :=
       flat_map (fun '(i, j) =>
                   let '(r, g, b) := spec_color params (spec_v params j) in
                   [r; g; b])
                (cells (n + 1)%nat (m + 1)%nat);
     indices :=
       flat_map (fun '(i, j) => flat_map corners (spec_cell_triangles m i j))
                (cells n m) |}.

End Specification.

(** ** Real numbers as numbers *)

#[export] Instance R_Number : Number R := {|
  lit := Q2R;
  ofNat := INR;
  add := Rplus;
  sub := Rminus;
  mul := Rmult;
  div := Rdiv;
  neg := Ropp;
  Math_sqrt := sqrt;
  Math_abs := Rabs;
  Math_sin := sin;
  Math_cos := cos;
  Math_PI := PI
|}.

(** A sum over [i < n] of real numbers. *)
Fixpoint big_sum (n : nat) (f : nat -> R) : R :=
  match n with
  | O => 0%R
  | S n' => (big_sum n' f + f n')%R
  end.

(** The strip of the specification's scenario: radius 1, width 0.5,
    resolution 20. *)
Definition example_params : MobiusStripParams R :=
  {| radius := 1%R; width := 0.5%R; resolution := 20 |}.

(** A strip with no angular subdivision. *)
Definition degenerate_params : MobiusStripParams R :=
  {| radius := 1%R; width := 0.5%R; resolution := 0 |}.

(** ** Binary64 numbers as numbers *)

(** The double that holds a positive integer (exact below [2^53]). *)
Fixpoint float_of_pos (p : positive) : float :=
  match p with
  | xH => 1%float
  | xO p' => PrimFloat.mul 2%float (float_of_pos p')
  | xI p' => PrimFloat.add (PrimFloat.mul 2%float (float_of_pos p')) 1%float
  end.

Definition float_of_Z (n : Z) : float :=
  match n with
  | Z0 => 0%float
  | Zpos p => float_of_pos p
  | Zneg p => PrimFloat.opp (float_of_pos p)
  end.

(** IEEE 754 binary64 arithmetic, rounding to nearest.  The language leaves
    the values of [Math.sin] and [Math.cos] to its implementation, so they
    are arguments here.  A literal is the double nearest to it: the correctly
    rounded quotient of its numerator and denominator. *)
Definition binary64_Number (fsin fcos : float -> float) : Number float := {|
  lit := fun q => PrimFloat.div (float_of_Z (Qnum q)) (float_of_pos (Qden q));
  ofNat := fun n => float_of_Z (Z.of_nat n);
  add := PrimFloat.add;
  sub := PrimFloat.sub;
  mul := PrimFloat.mul;
  div := PrimFloat.div;
  neg := PrimFloat.opp;
  Math_sqrt := PrimFloat.sqrt;
  Math_abs := PrimFloat.abs;
  Math_sin := fsin;
  Math_cos := fcos;
  Math_PI := 0x1.921fb54442d18p+1%float
|}.

(** The same strip in binary64. *)
Definition example_params64 : MobiusStripParams float :=
  {| radius := 1%float; width := 0.5%float; resolution := 20 |}.


(** A strip of the least positive width that binary64 holds. *)
Definition thin_params64 : MobiusStripParams float :=
  {| radius := 1%float; width := 0x1p-1074%float; resolution := 20 |}.

(** What is known of [Math.sin] or of [Math.cos]: a table of arguments and
    values. *)
Definition has_values (f : float -> float) (table : list (float * float)) : Prop :=
  forall a b : float, In (a, b) table -> f a = b.

(** A property of binary64 arithmetic holds [for_every_Math] when it holds
    with every pair of functions for [Math.sin] and [Math.cos] that take the
    values of the two tables. *)
Definition for_every_Math (sin_table cos_table : list (float * float))
           (P : Number float -> Prop) : Prop :=
  forall fsin fcos : float -> float,
    has_values fsin sin_table -> has_values fcos cos_table ->
    P (binary64_Number fsin fcos).

(** A function that takes the values of a table, and [NaN] elsewhere. *)
Definition table_fun (table : list (float * float)) (arg : float) : float :=
  fold_right (fun '(a, b) rest => if PrimFloat.eqb arg a then b else rest)
             nan table.

(** The values that the language fixes at zero: [Math.sin(0)] is [0] and
    [Math.cos(0)] is [1]. *)
Definition sin_at_zero : list (float * float) := [(0, 0)]%float.
Definition cos_at_zero : list (float * float) := [(0, 1)]%float.

(** The cosines, rounded to the nearest double, of the two angles
    [(11 / 20) * Math.PI * 2] and [11 * (2 * Math.PI / 20)] and of their
    halves. *)
Definition cos_row_11 : list (float * float) :=
  [(0x1.ba5614317cb35p+1, -0x1.e6f0e134454ffp-1);
   (0x1.ba5614317cb34p+1, -0x1.e6f0e13445500p-1);
   (0x1.ba5614317cb35p+0, -0x1.4060b67a8537bp-3);
   (0x1.ba5614317cb34p+0, -0x1.4060b67a85373p-3)]%float.

(** ** The parameter form *)

(** A JavaScript number as the form sees it: not-a-number, an infinity, or a
    finite value. *)
Inductive JSNumber : Type :=
| JSNaN
| JSPosInf
| JSNegInf
| JSFinite (r : R).

(** [Math.round]: the nearest integer, a tie going up. *)
Definition Math_round (v : JSNumber) : JSNumber :=
  match v with
  | JSFinite r => JSFinite (IZR (Int_part (r + / 2)))
  | _ => v
  end.

(** [Math.max] of two numbers. *)
Definition Math_max (a b : JSNumber) : JSNumber :=
  match a, b with
  | JSNaN, _ | _, JSNaN => JSNaN
  | JSPosInf, _ | _, JSPosInf => JSPosInf
  | JSNegInf, v | v, JSNegInf => v
  | JSFinite p, JSFinite q => JSFinite (Rmax p q)
  end.

(** An object whose properties hold numbers. *)
Definition JSObject : Type := string -> option JSNumber.

(** [{ ...o, [name]: v }] *)
Definition set_property (o : JSObject) (name : string) (v : JSNumber) : JSObject :=
  fun key => if String.eqb key name then Some v else o key.

(** [handleInputChange], from the name of the input and the number that
    [parseFloat] read in it to the object handed to [onChange]. *)
Definition handleInputChange (params : JSObject) (name : string)
           (numValue : JSNumber) : JSObject :=
  let processedValue :=
    if String.eqb name "resolution"
    then Math_max (JSFinite 10%R) (Math_round numValue)
    else numValue in
  set_property params name processedValue.

(** ** The scene component *)

(** What the effect of the [MobiusStrip] component reads and writes: the two
    refs, the geometries built so far (a geometry is known by its position in
    [allocated]) and those on which [dispose] was called. *)
Record Scene (F : Type) : Type := {
  meshMounted : bool;
  meshGeometry : option nat;
  geometryRef : option nat;
  allocated : list (MeshBuffers F);
  disposed : list nat
}.

Definition initialScene (F : Type) (mounted : bool) : Scene F :=
  {| meshMounted := mounted; meshGeometry := None; geometryRef := None;
     allocated := []; disposed := [] |}.

(** The body of the effect that runs when the parameters change. *)
Definition geometryEffect {F : Type} {num : Number F}
           (params : MobiusStripParams F) (s : Scene F) : Scene F :=
  if meshMounted s then
    let disposed :=
      match geometryRef s with
      | Some old => (disposed s ++ [old])%list
      | None => disposed s
      end in
    let fresh := length (allocated s) in
    {| meshMounted := true;
       meshGeometry := Some fresh;
       geometryRef := Some fresh;
       allocated := (allocated s ++ [generateMobiusGeometry params])%list;
       disposed := disposed |}
  else s.

(** * Proofs *)

(** ** Loops as folds over the range of the counter *)

Lemma for_loop_fold {S : Type} (body : nat -> S -> S) (n i : nat) (s : S) :
  for_loop n i body s = fold_left (fun s k => body k s) (seq i n) s.
Proof.
  revert i s. induction n as [|n IH]; intros i s; simpl.
  - reflexivity.
  - apply IH.
Qed.

Lemma for_range_fold {S : Type} (body : nat -> S -> S) (lo hi : nat) (s : S) :
  for_range lo hi body s = fold_left (fun s k => body k s) (seq lo (hi - lo)) s.
Proof. unfold for_range. apply for_loop_fold. Qed.

Lemma fold_left_ext_in {A B : Type} (f g : A -> B -> A) (l : list B) (s : A) :
  (forall s b, In b l -> f s b = g s b) -> fold_left f l s = fold_left g l s.
Proof.
  revert s. induction l as [|b l IH]; intros s Hfg; simpl.
  - reflexivity.
  - rewrite (Hfg s b) by (left; reflexivity).
    apply IH. intros s' b' Hin. apply Hfg. right. exact Hin.
Qed.

Lemma fold_left_flat_map {A B C : Type} (f : A -> C -> A) (g : B -> list C)
      (l : list B) (s : A) :
  fold_left f (flat_map g l) s = fold_left (fun s b => fold_left f (g b) s) l s.
Proof.
  revert s. induction l as [|b l IH]; intros s; simpl.
  - reflexivity.
  - rewrite fold_left_app. apply IH.
Qed.

Lemma fold_left_map {A B C : Type} (f : A -> C -> A) (g : B -> C)
      (l : list B) (s : A) :
  fold_left f (map g l) s = fold_left (fun s b => f s (g b)) l s.
Proof.
  revert s. induction l as [|b l IH]; intros s; simpl.
  - reflexivity.
  - apply IH.
Qed.

(** A loop whose body appends to a list appends the bodies' lists in turn. *)
Lemma for_loop_app {A : Type} (body : nat -> list A -> list A) (f : nat -> list A)
      (n i : nat) (l : list A) :
  (forall k l, body k l = l ++ f k) ->
  for_loop n i body l = l ++ flat_map f (seq i n).
Proof.
  intros Hbody. revert i l. induction n as [|n IH]; intros i l; simpl.
  - now rewrite app_nil_r.
  - rewrite IH, Hbody, <- app_assoc. reflexivity.
Qed.

Lemma for_loop_app2 {A B : Type} (body : nat -> list A * list B -> list A * list B)
      (f : nat -> list A) (g : nat -> list B) (n i : nat) (a : list A) (b : list B) :
  (forall k a b, body k (a, b) = (a ++ f k, b ++ g k)) ->
  for_loop n i body (a, b) = (a ++ flat_map f (seq i n), b ++ flat_map g (seq i n)).
Proof.
  intros Hbody. revert i a b. induction n as [|n IH]; intros i a b; simpl.
  - now rewrite !app_nil_r.
  - rewrite Hbody, IH, <- !app_assoc. reflexivity.
Qed.

(** ** The surface area *)

(** C1. [calculateSurfaceArea] returns the double sum, over [i < resolution]
    and [j < vSegments] taken row by row from [0], of
    [|dr/du x dr/dv| (u_i, v_j) * delta_u * delta_v], with
    [vSegments = max 10 (resolution / 5)], [delta_u = 2 pi / resolution],
    [delta_v = width / vSegments], [u_i = i * delta_u],
    [v_j = (j / vSegments - 0.5) * width] and the closed-form partial
    derivatives; this holds in every arithmetic, for all parameters. *)
Theorem calculateSurfaceArea_riemann_sum :
  forall (F : Type) (num : Number F) (params : MobiusStripParams F),
    calculateSurfaceArea params = spec_surface_area params.
Proof.
  intros F num params.
  unfold calculateSurfaceArea, spec_surface_area, sum_list, cells.
  rewrite fold_left_map, fold_left_flat_map, for_range_fold, Nat.sub_0_r.
  apply fold_left_ext_in. intros area i _.
  rewrite fold_left_map, for_range_fold, Nat.sub_0_r.
  apply fold_left_ext_in. intros area' j _.
  reflexivity.
Qed.

(** ** The edge length *)

Lemma segments_cons2 {A : Type} (a b : A) (l : list A) :
  segments (a :: b :: l) = (a, b) :: segments (b :: l).
Proof. reflexivity. Qed.

Lemma segments_length {A : Type} (l : list A) :
  length (segments l) = length l - 1.
Proof.
  unfold segments. rewrite length_combine.
  destruct l as [|a l]; cbn [tl length]; lia.
Qed.

(** The loop of [calculateEdgeLength], started at any counter, length and
    previous point. *)
Lemma edge_loop_polyline {F : Type} {num : Number F} (P : nat -> Point3D F)
      (n i : nat) (acc : F) (prev : Point3D F) :
  fst (for_loop n i
         (fun k '(len, prevPoint) => (add len (distance prevPoint (P k)), P k))
         (acc, prev))
  = fold_left add
      (map (fun '(a, b) => distance a b) (segments (prev :: map P (seq i n)))) acc.
Proof.
  revert i acc prev. induction n as [|n IH]; intros i acc prev.
  - reflexivity.
  - cbn [for_loop seq map]. rewrite IH, segments_cons2. reflexivity.
Qed.

(** C2. [calculateEdgeLength] fixes [v = width / 2], samples the
    [resolution + 1] points [position (i * (2 pi / resolution)) (width / 2) radius],
    [i = 0 .. resolution], and returns the sum of the [resolution] distances
    between consecutive samples.  The first sample is taken at the literal
    [u = 0]; it is the sample of [i = 0] as soon as [0 * (2 pi / resolution)]
    is [0]. *)
Theorem calculateEdgeLength_polyline :
  forall (F : Type) (num : Number F) (params : MobiusStripParams F),
    spec_u params 0 = lit 0 ->
    calculateEdgeLength params = spec_edge_length params
    /\ length (spec_edge_samples params) = resolution params + 1
    /\ length (segments (spec_edge_samples params)) = resolution params
    /\ Forall (fun p => exists u,
                 p = spec_position u (width params / lit 2)%js (radius params))
              (spec_edge_samples params).
Proof.
  intros F num params H0.
  assert (Hlen : length (spec_edge_samples params) = resolution params + 1).
  { unfold spec_edge_samples. now rewrite length_map, length_seq. }
  split; [|split; [exact Hlen|split]].
  - unfold calculateEdgeLength, spec_edge_length, spec_edge_samples, sum_list,
      for_range.
    etransitivity.
    { apply (edge_loop_polyline
               (fun i => calculateMobiusPoint (spec_u params i)
                           (div (width params) (lit 2)) (radius params))). }
    replace (resolution params + 1 - 1) with (resolution params) by lia.
    replace (resolution params + 1) with (S (resolution params)) by lia.
    cbn [seq map]. rewrite H0. reflexivity.
  - rewrite segments_length, Hlen. lia.
  - unfold spec_edge_samples. apply Forall_forall. intros p Hin.
    apply in_map_iff in Hin. destruct Hin as [i [Hp _]].
    exists (spec_u params i). symmetry. exact Hp.
Qed.

(** ** The grid *)

Lemma nth_error_snoc {A : Type} (l : list A) (a : A) :
  nth_error (l ++ [a]) (length l) = Some a.
Proof. rewrite nth_error_app2, Nat.sub_diag by lia. reflexivity. Qed.

Lemma replace_at_snoc {A : Type} (l : list A) (a b : A) :
  replace_at (l ++ [a]) (length l) b = l ++ [b].
Proof. induction l as [|h l IH]; simpl; [|rewrite IH]; reflexivity. Qed.

(** Writing one past the end of an array pushes. *)
Lemma arr_set_end {A : Type} (a : JSArray A) (x : A) :
  arr_set a (length a) x = a ++ [Some x].
Proof. unfold arr_set. rewrite Nat.ltb_irrefl, Nat.sub_diag. reflexivity. Qed.

(** Writing at the last slot replaces it. *)
Lemma arr_set_last {A : Type} (a : JSArray A) (y : option A) (x : A) :
  arr_set (a ++ [y]) (length a) x = a ++ [Some x].
Proof.
  unfold arr_set. rewrite length_app. cbn [length].
  replace (length a <? length a + 1) with true by (symmetry; apply Nat.ltb_lt; lia).
  apply replace_at_snoc.
Qed.

Lemma arr_get_snoc {A : Type} (a : JSArray A) (x : A) :
  arr_get (a ++ [Some x]) (length a) = Some x.
Proof. unfold arr_get. rewrite nth_error_snoc. reflexivity. Qed.

Lemma arr_set2_last {A : Type} (a : JSArray (JSArray A)) (row : JSArray A) (x : A) :
  arr_set2 (a ++ [Some row]) (length a) (length row) x
  = Some (a ++ [Some (row ++ [Some x])]).
Proof. unfold arr_set2. rewrite arr_get_snoc, arr_set_end, arr_set_last. reflexivity. Qed.

(** The inner loop of [fillPoints] extends the last row, slot by slot. *)
Lemma fill_row {A : Type} (P : nat -> A) (a : JSArray (JSArray A)) (n : nat) :
  forall (j : nat) (row : JSArray A),
    length row = j ->
    for_loop n j
      (fun j st => match st with
                   | None => None
                   | Some points => arr_set2 points (length a) j (P j)
                   end)
      (Some (a ++ [Some row]))
    = Some (a ++ [Some (row ++ map (fun j => Some (P j)) (seq j n))]).
Proof.
  induction n as [|n IH]; intros j row Hrow; cbn [for_loop seq map].
  - now rewrite app_nil_r.
  - subst j. rewrite arr_set2_last, IH by (rewrite length_app; simpl; lia).
    rewrite <- app_assoc. reflexivity.
Qed.

(** A loop that pushes one row per round. *)
Lemma push_rows {A : Type} (body : nat -> option (JSArray A) -> option (JSArray A))
      (rowOf : nat -> A) (n : nat) :
  (forall a : JSArray A,
      body (length a) (Some a) = Some (a ++ [Some (rowOf (length a))])) ->
  forall (i : nat) (a : JSArray A),
    length a = i ->
    for_loop n i body (Some a) = Some (a ++ map (fun i => Some (rowOf i)) (seq i n)).
Proof.
  intros Hbody. induction n as [|n IH]; intros i a Ha; cbn [for_loop seq map].
  - now rewrite app_nil_r.
  - subst i. rewrite Hbody, IH by (rewrite length_app; simpl; lia).
    rewrite <- app_assoc. reflexivity.
Qed.

Lemma fillPoints_grid {F : Type} {num : Number F} (params : MobiusStripParams F) :
  fillPoints params = Some (spec_grid params).
Proof.
  unfold fillPoints, spec_grid, for_range. rewrite Nat.sub_0_r.
  apply (fun Hbody =>
           @push_rows _ _
             (fun i => map (fun j => Some (calculateMobiusPoint
                                             (spec_u params i) (spec_v params j)
                                             (radius params)))
                           (seq 0 (spec_vSegments params + 1)))
             (resolution params + 1) Hbody 0 [] eq_refl).
  intros a. rewrite arr_set_end, Nat.sub_0_r.
  apply (@fill_row _
           (fun j => calculateMobiusPoint (spec_u params (length a)) (spec_v params j)
                                          (radius params))
           a (spec_vSegments params + 1) 0 [] eq_refl).
Qed.

Lemma arr_get_map_Some {A B : Type} (f : A -> B) (l : list A) (k : nat) :
  arr_get (map (fun a => Some (f a)) l) k = option_map f (nth_error l k).
Proof.
  unfold arr_get. rewrite nth_error_map. destruct (nth_error l k); reflexivity.
Qed.

Lemma nth_error_seq_lt (lo n k : nat) : k < n -> nth_error (seq lo n) k = Some (lo + k).
Proof.
  intros Hk. rewrite (nth_error_nth' _ 0) by (rewrite length_seq; exact Hk).
  now rewrite seq_nth.
Qed.

Lemma spec_grid_at {F : Type} {num : Number F} (params : MobiusStripParams F)
      (i j : nat) :
  i <= resolution params -> j <= spec_vSegments params ->
  gridAt (spec_grid params) i j
  = Some (calculateMobiusPoint (spec_u params i) (spec_v params j) (radius params)).
Proof.
  intros Hi Hj. unfold gridAt, spec_grid.
  rewrite arr_get_map_Some, nth_error_seq_lt by lia. cbn [option_map].
  rewrite arr_get_map_Some, nth_error_seq_lt by lia. reflexivity.
Qed.


(** ** The mesh buffers *)

Lemma flat_map_map {A B C : Type} (f : B -> list C) (g : A -> B) (l : list A) :
  flat_map f (map g l) = flat_map (fun a => f (g a)) l.
Proof. induction l as [|a l IH]; simpl; [|rewrite IH]; reflexivity. Qed.

Lemma flat_map_cells {A : Type} (h : nat -> nat -> list A) (n m : nat) :
  flat_map (fun '(i, j) => h i j) (cells n m)
  = flat_map (fun i => flat_map (fun j => h i j) (seq 0 m)) (seq 0 n).
Proof.
  unfold cells. induction (seq 0 n) as [|i l IH]; simpl.
  - reflexivity.
  - rewrite flat_map_app, IH, flat_map_map. reflexivity.
Qed.

Lemma in_cells (n m i j : nat) : In (i, j) (cells n m) <-> i < n /\ j < m.
Proof.
  unfold cells. rewrite in_flat_map. split.
  - intros [k [Hk Hin]]. apply in_map_iff in Hin. destruct Hin as [j' [Heq Hj]].
    inversion Heq; subst. apply in_seq in Hk. apply in_seq in Hj. lia.
  - intros [Hi Hj]. exists i. split; [apply in_seq; lia|].
    apply in_map. apply in_seq. lia.
Qed.

Lemma flat_map_length_const {A B : Type} (f : A -> list B) (c : nat) (l : list A) :
  (forall a, length (f a) = c) -> length (flat_map f l) = c * length l.
Proof.
  intros Hf. induction l as [|a l IH]; simpl.
  - lia.
  - rewrite length_app, Hf, IH. lia.
Qed.

Lemma cells_length (n m : nat) : length (cells n m) = n * m.
Proof.
  unfold cells. rewrite (flat_map_length_const _ (c := m)).
  - rewrite length_seq. lia.
  - intros a. now rewrite length_map, length_seq.
Qed.

(** [generateMobiusGeometry] fills its three buffers as [mesh_layout] says. *)
Lemma generateMobiusGeometry_layout {F : Type} {num : Number F}
      (params : MobiusStripParams F) :
  generateMobiusGeometry params = mesh_layout params.
Proof.
  unfold generateMobiusGeometry, mesh_layout. cbv zeta.
  set (X := for_range 0 (resolution params + 1) _ _).
  assert (HX : X = (flat_map (fun i => flat_map (fun j =>
                       let p := calculateMobiusPoint (mesh_u params i) (spec_v params j)
                                                     (radius params) in
                       [x p; y p; z p]) (seq 0 (spec_vSegments params + 1)))
                     (seq 0 (resolution params + 1)),
                    flat_map (fun i => flat_map (fun j =>
                       let '(r, g, b) := spec_color params (spec_v params j) in
                       [r; g; b]) (seq 0 (spec_vSegments params + 1)))
                     (seq 0 (resolution params + 1)))).
  { subst X. unfold for_range. rewrite Nat.sub_0_r.
    apply (fun H => for_loop_app2 _ _ _ (resolution params + 1) 0 [] [] H).
    intros i a b. rewrite Nat.sub_0_r.
    apply (fun H => for_loop_app2 _ _ _ (spec_vSegments params + 1) 0 a b H).
    intros j a' b'. reflexivity. }
  rewrite HX. f_equal.
  - symmetry. apply (flat_map_cells (fun i j =>
      let p := calculateMobiusPoint (mesh_u params i) (spec_v params j) (radius params) in
      [x p; y p; z p])).
  - symmetry. apply (flat_map_cells (fun i j =>
      let '(r, g, b) := spec_color params (spec_v params j) in [r; g; b])).
  - unfold for_range. rewrite Nat.sub_0_r.
    rewrite (flat_map_cells (fun i j =>
               flat_map corners (spec_cell_triangles (spec_vSegments params) i j))).
    apply (fun H => for_loop_app _ _ (resolution params) 0 [] H).
    intros i l. rewrite Nat.sub_0_r.
    apply (fun H => for_loop_app _ _ (spec_vSegments params) 0 l H).
    intros j l'. rewrite <- app_assoc.
    unfold spec_cell_triangles. cbn [flat_map corners app].
    change (vSegmentsOf (resolution params)) with (spec_vSegments params).
    replace (i * (spec_vSegments params + 1) + j + (spec_vSegments params + 1))
      with (i * (spec_vSegments params + 1) + j + spec_vSegments params + 1) by lia.
    reflexivity.
Qed.

Lemma nth_error_flat_map_const {A B : Type} (f : A -> list B) (c : nat)
      (l : list A) (k r : nat) :
  (forall a, length (f a) = c) -> r < c ->
  nth_error (flat_map f l) (c * k + r)
  = match nth_error l k with
    | Some a => nth_error (f a) r
    | None => None
    end.
Proof.
  intros Hf Hr. revert k. induction l as [|a l IH]; intros k; simpl.
  - destruct k; destruct (c * _ + r); reflexivity.
  - destruct k as [|k].
    + rewrite Nat.mul_0_r. simpl. rewrite nth_error_app1 by (rewrite Hf; lia).
      reflexivity.
    + rewrite nth_error_app2 by (rewrite Hf; nia). rewrite Hf.
      replace (c * S k + r - c) with (c * k + r) by nia. apply IH.
Qed.

Lemma nth_error_cells (n m i j : nat) :
  i < n -> j < m -> nth_error (cells n m) (i * m + j) = Some (i, j).
Proof.
  intros Hi Hj. unfold cells. rewrite (Nat.mul_comm i m).
  rewrite (nth_error_flat_map_const _ (c := m)); try assumption.
  - rewrite nth_error_seq_lt by assumption.
    rewrite nth_error_map, nth_error_seq_lt by assumption. reflexivity.
  - intros a. now rewrite length_map, length_seq.
Qed.

Lemma triple_at_flat_map {A B : Type} (f : A -> B * B * B) (l : list A) (k : nat) :
  triple_at (flat_map (fun a => let '(p, q, r) := f a in [p; q; r]) l) k
  = option_map f (nth_error l k).
Proof.
  assert (Hlen : forall a, length (let '(p, q, r) := f a in [p; q; r]) = 3).
  { intros a. destruct (f a) as [[p q] r]. reflexivity. }
  unfold triple_at. rewrite <- (Nat.add_0_r (3 * k)) at 1.
  rewrite !(nth_error_flat_map_const _ (c := 3)) by (assumption || lia).
  destruct (nth_error l k) as [a|]; [|reflexivity].
  cbn [option_map]. destruct (f a) as [[p q] r]. reflexivity.
Qed.

Lemma triple_at_None {A : Type} (l : list A) (k : nat) :
  length l <= 3 * k + 2 -> triple_at l k = None.
Proof.
  intros Hk. unfold triple_at.
  replace (nth_error l (3 * k + 2)) with (@None A)
    by (symmetry; apply nth_error_None; exact Hk).
  destruct (nth_error l (3 * k)), (nth_error l (3 * k + 1)); reflexivity.
Qed.

(** The vertex and the colour that the mesh stores for the sample [(i, j)]. *)
Lemma vertexAt_layout {F : Type} {num : Number F} (params : MobiusStripParams F)
      (i j : nat) :
  i <= resolution params -> j <= spec_vSegments params ->
  vertexAt (generateMobiusGeometry params) (i * (spec_vSegments params + 1) + j)
  = Some (calculateMobiusPoint (mesh_u params i) (spec_v params j) (radius params)).
Proof.
  intros Hi Hj. rewrite generateMobiusGeometry_layout.
  unfold vertexAt, mesh_layout. cbn [vertices].
  rewrite (flat_map_ext _
             (fun a => let '(p, q, r) :=
                         (let '(i, j) := a in
                          let p := calculateMobiusPoint (mesh_u params i)
                                     (spec_v params j) (radius params) in
                          (x p, y p, z p)) in [p; q; r]))
    by (intros [i' j']; reflexivity).
  rewrite triple_at_flat_map, nth_error_cells by lia. reflexivity.
Qed.

Lemma colorAt_layout {F : Type} {num : Number F} (params : MobiusStripParams F)
      (i j : nat) :
  i <= resolution params -> j <= spec_vSegments params ->
  colorAt (generateMobiusGeometry params) (i * (spec_vSegments params + 1) + j)
  = Some (spec_color params (spec_v params j)).
Proof.
  intros Hi Hj. rewrite generateMobiusGeometry_layout.
  unfold colorAt, mesh_layout. cbn [colors].
  rewrite (flat_map_ext _
             (fun a => let '(p, q, r) :=
                         (let '(i, j) := a in spec_color params (spec_v params j))
                       in [p; q; r]))
    by (intros [i' j']; reflexivity).
  rewrite triple_at_flat_map, nth_error_cells by lia. reflexivity.
Qed.

Lemma vertices_length {F : Type} {num : Number F} (params : MobiusStripParams F) :
  length (vertices (generateMobiusGeometry params))
  = 3 * ((resolution params + 1) * (spec_vSegments params + 1)).
Proof.
  rewrite generateMobiusGeometry_layout. unfold mesh_layout. cbn [vertices].
  rewrite (flat_map_length_const _ (c := 3)) by (intros [i j]; reflexivity).
  now rewrite cells_length.
Qed.

(** ** The triangles *)

Lemma triangles_corners_app (ts : list (nat * nat * nat)) (rest : list nat) :
  triangles (flat_map corners ts ++ rest) = ts ++ triangles rest.
Proof.
  induction ts as [|[[a b] c] ts IH]; simpl.
  - reflexivity.
  - rewrite IH. reflexivity.
Qed.

Lemma triangles_flat_map {A : Type} (T : A -> list (nat * nat * nat)) (l : list A) :
  triangles (flat_map (fun a => flat_map corners (T a)) l) = flat_map T l.
Proof.
  induction l as [|a l IH]; simpl.
  - reflexivity.
  - rewrite triangles_corners_app, IH. reflexivity.
Qed.

(** The triangles of the mesh are the two triangles of every cell [(i, j)],
    [i < resolution], [j < vSegments], and no others. *)
Lemma mesh_triangles {F : Type} {num : Number F} (params : MobiusStripParams F) :
  triangles (indices (generateMobiusGeometry params))
  = flat_map (fun '(i, j) => spec_cell_triangles (spec_vSegments params) i j)
             (cells (resolution params) (spec_vSegments params)).
Proof.
  rewrite generateMobiusGeometry_layout. unfold mesh_layout. cbn [indices].
  rewrite <- triangles_flat_map. f_equal.
  apply flat_map_ext. intros [i j]. reflexivity.
Qed.

Lemma in_mesh_triangles {F : Type} {num : Number F} (params : MobiusStripParams F)
      (t : nat * nat * nat) :
  In t (triangles (indices (generateMobiusGeometry params))) <->
  exists i j, i < resolution params /\ j < spec_vSegments params
              /\ In t (spec_cell_triangles (spec_vSegments params) i j).
Proof.
  rewrite mesh_triangles, in_flat_map. split.
  - intros [[i j] [Hin Ht]]. apply in_cells in Hin. exists i, j. tauto.
  - intros [i [j [Hi [Hj Ht]]]]. exists (i, j). split; [apply in_cells; lia|exact Ht].
Qed.

Lemma in_mesh_indices {F : Type} {num : Number F} (params : MobiusStripParams F)
      (k : nat) :
  In k (indices (generateMobiusGeometry params)) <->
  exists t, In t (triangles (indices (generateMobiusGeometry params)))
            /\ In k (corners t).
Proof.
  rewrite mesh_triangles, generateMobiusGeometry_layout.
  unfold mesh_layout. cbn [indices]. rewrite in_flat_map. split.
  - intros [[i j] [Hin Hk]]. apply in_flat_map in Hk. destruct Hk as [t [Ht Hk]].
    exists t. split; [|exact Hk]. apply in_flat_map. exists (i, j). tauto.
  - intros [t [Ht Hk]]. apply in_flat_map in Ht. destruct Ht as [[i j] [Hin Ht]].
    exists (i, j). split; [exact Hin|]. apply in_flat_map. exists t. tauto.
Qed.

(** C5. [generateMobiusGeometry] emits exactly [2 * resolution * vSegments]
    triangles, an index buffer of length [6 * resolution * vSegments] and
    exactly [(resolution + 1) * (vSegments + 1)] vertices, and every emitted
    index is below [(resolution + 1) * (vSegments + 1)], so it names a stored
    vertex. *)
Theorem generateMobiusGeometry_counts_and_bounds :
  forall (F : Type) (num : Number F) (params : MobiusStripParams F),
    let g := generateMobiusGeometry params in
    let n := resolution params in
    let m := Nat.max 10 (n / 5) in
    length (triangles (indices g)) = 2 * n * m
    /\ length (indices g) = 6 * n * m
    /\ length (vertices g) = 3 * ((n + 1) * (m + 1))
    /\ (forall k, vertexAt g k <> None <-> k < (n + 1) * (m + 1))
    /\ Forall (fun k => k < (n + 1) * (m + 1)) (indices g)
    /\ Forall (fun k => vertexAt g k <> None) (indices g).
Proof.
  intros F num params g n m.
  assert (Hm : m = spec_vSegments params) by reflexivity.
  assert (Hvert : forall k, vertexAt g k <> None <-> k < (n + 1) * (m + 1)).
  { intros k. split.
    - intros Hk. destruct (Nat.lt_ge_cases k ((n + 1) * (m + 1))) as [Hlt|Hge];
        [exact Hlt|].
      exfalso. apply Hk. unfold vertexAt. rewrite triple_at_None; [reflexivity|].
      subst g. rewrite vertices_length. fold n. rewrite <- Hm. lia.
    - intros Hk.
      pose proof (Nat.div_mod_eq k (m + 1)) as Hdiv.
      assert (Hj : k mod (m + 1) < m + 1) by (apply Nat.mod_upper_bound; lia).
      assert (Hi : k / (m + 1) < n + 1).
      { apply Nat.Div0.div_lt_upper_bound. lia. }
      replace k with (k / (m + 1) * (m + 1) + k mod (m + 1)) by lia.
      subst g. rewrite Hm.
      rewrite vertexAt_layout by (fold n; rewrite <- ?Hm; lia).
      discriminate. }
  assert (Hidx : Forall (fun k => k < (n + 1) * (m + 1)) (indices g)).
  { apply Forall_forall. intros k Hk. apply in_mesh_indices in Hk.
    destruct Hk as [t [Ht Hk]]. apply in_mesh_triangles in Ht.
    destruct Ht as [i [j [Hi [Hj Ht]]]]. fold n in Hi. rewrite <- Hm in Hj, Ht.
    unfold spec_cell_triangles in Ht. cbn [In] in Ht.
    destruct Ht as [Ht|[Ht|[]]]; subst t; cbn [corners In] in Hk;
      destruct Hk as [Hk|[Hk|[Hk|[]]]]; subst k; nia. }
  repeat split.
  - subst g. rewrite mesh_triangles.
    rewrite (flat_map_length_const _ (c := 2)) by (intros [i j]; reflexivity).
    rewrite cells_length. fold n. rewrite <- Hm. lia.
  - subst g. rewrite generateMobiusGeometry_layout. unfold mesh_layout.
    cbn [indices].
    rewrite (flat_map_length_const _ (c := 6)) by (intros [i j]; reflexivity).
    rewrite cells_length. fold n. rewrite <- Hm. lia.
  - subst g. rewrite vertices_length. reflexivity.
  - apply Hvert.
  - apply Hvert.
  - exact Hidx.
  - apply Forall_forall. intros k Hk. apply Hvert.
    apply (proj1 (Forall_forall _ _) Hidx). exact Hk.
Qed.

(** C6. For [resolution >= 10], every triangle of the mesh belongs to a cell
    [(i, j)] with [i < resolution], and none has both a corner in row
    [resolution] (index at least [resolution * (vSegments + 1)]) and a corner
    in row [0] (index at most [vSegments]): the seam between the last and the
    first row stays open. *)
Theorem generateMobiusGeometry_open_seam :
  forall (F : Type) (num : Number F) (params : MobiusStripParams F),
    10 <= resolution params ->
    let n := resolution params in
    let m := Nat.max 10 (n / 5) in
    forall t, In t (triangles (indices (generateMobiusGeometry params))) ->
      (exists i j, i < n /\ j < m /\ In t (spec_cell_triangles m i j))
      /\ ~ ((exists p, In p (corners t) /\ n * (m + 1) <= p)
            /\ (exists q, In q (corners t) /\ q <= m)).
Proof.
  intros F num params Hres n m t Ht.
  apply in_mesh_triangles in Ht. destruct Ht as [i [j [Hi [Hj Ht]]]].
  fold n in Hi. change (spec_vSegments params) with m in Hj, Ht.
  split; [exists i, j; tauto|].
  intros [[p [Hp Hrow]] [q [Hq Hrow0]]].
  unfold spec_cell_triangles in Ht. cbn [In] in Ht.
  destruct Ht as [Ht|[Ht|[]]]; subst t; cbn [corners In] in Hp, Hq;
    destruct Hp as [Hp|[Hp|[Hp|[]]]]; subst p;
    destruct Hq as [Hq|[Hq|[Hq|[]]]]; subst q; nia.
Qed.

(** C10. Every triangle of the mesh is one of the two triangles
    [(a, a+1, a+vSegments+2)] and [(a, a+vSegments+2, a+vSegments+1)] of a
    cell, and its three vertex indices are pairwise distinct. *)
Theorem generateMobiusGeometry_triangles_not_degenerate :
  forall (F : Type) (num : Number F) (params : MobiusStripParams F),
    let m := Nat.max 10 (resolution params / 5) in
    forall t, In t (triangles (indices (generateMobiusGeometry params))) ->
      (exists a, t = (a, a + 1, a + m + 2) \/ t = (a, a + m + 2, a + m + 1))
      /\ (let '(p, q, r) := t in p <> q /\ q <> r /\ p <> r).
Proof.
  intros F num params m t Ht.
  apply in_mesh_triangles in Ht. destruct Ht as [i [j [Hi [Hj Ht]]]].
  change (spec_vSegments params) with m in Hj, Ht.
  unfold spec_cell_triangles in Ht. cbn [In] in Ht.
  assert (Heq : forall p q r p' q' r' : nat,
             p = p' -> q = q' -> r = r' -> (p, q, r) = (p', q', r'))
    by (intros; subst; reflexivity).
  destruct Ht as [Ht|[Ht|[]]]; subst t.
  - split; [|lia]. exists (i * (m + 1) + j). left. apply Heq; lia.
  - split; [|lia]. exists (i * (m + 1) + j). right. apply Heq; lia.
Qed.

(** * The parametrization and the mesh vertices *)

(** ** The tables of [Math.sin] and [Math.cos] *)

(** Each table used below is the table of a function, so that what holds
    [for_every_Math] holds of some arithmetic. *)
Lemma tables_consistent :
  has_values (table_fun []) []
  /\ has_values (table_fun sin_at_zero) sin_at_zero
  /\ has_values (table_fun cos_at_zero) cos_at_zero
  /\ has_values (table_fun cos_row_11) cos_row_11.
Proof.
  repeat split; intros a b Hin; cbn [In sin_at_zero cos_at_zero cos_row_11] in Hin;
    repeat (destruct Hin as [Hin|Hin];
            [injection Hin as <- <-; vm_compute; reflexivity|]);
    contradiction.
Qed.

Lemma for_every_Math_table_fun (sin_table cos_table : list (float * float))
      (P : Number float -> Prop) :
  has_values (table_fun sin_table) sin_table ->
  has_values (table_fun cos_table) cos_table ->
  for_every_Math sin_table cos_table P ->
  P (binary64_Number (table_fun sin_table) (table_fun cos_table)).
Proof. intros Hs Hc H. exact (H _ _ Hs Hc). Qed.

(** ** Multiplication by one and by zero in binary64 *)






(** ** The position formula *)




(** ** The mesh vertices *)

(** C7. In every arithmetic the vertex that [generateMobiusGeometry]
    stores for the sample [(i, j)], [i <= resolution], [j <= vSegments], is
    [calculateMobiusPoint u' v_j radius] with [u' = (i / resolution) * pi * 2]
    and [v_j = (j / vSegments - 0.5) * width]; the entry [(i, j)] of the grid
    of [calculateMobiusStripData] is [calculateMobiusPoint u_i v_j radius]
    with [u_i = i * (2 pi / resolution)]; the two are the same point as soon
    as [u' = u_i]. *)
Theorem mesh_vertex_is_grid_position :
  forall (F : Type) (num : Number F) (params : MobiusStripParams F) (i j : nat),
    let n := resolution params in
    let m := Nat.max 10 (n / 5) in
    let u_mesh := ((ofNat i / ofNat n) * Math_PI * lit 2)%js in
    let u_grid := (ofNat i * ((lit 2 * Math_PI) / ofNat n))%js in
    let v := (((ofNat j / ofNat m) - lit 0.5) * width params)%js in
    i <= n -> j <= m ->
    vertexAt (generateMobiusGeometry params) (i * (m + 1) + j)
    = Some (calculateMobiusPoint u_mesh v (radius params))
    /\ exists data,
         calculateMobiusStripData params = Some data
         /\ gridAt (points data) i j
            = Some (calculateMobiusPoint u_grid v (radius params))
         /\ (u_mesh = u_grid ->
             gridAt (points data) i j
             = vertexAt (generateMobiusGeometry params) (i * (m + 1) + j)).
Proof.
  intros F num params i j n m u_mesh u_grid v Hi Hj.
  assert (Hv : vertexAt (generateMobiusGeometry params) (i * (m + 1) + j)
               = Some (calculateMobiusPoint u_mesh v (radius params))).
  { exact (vertexAt_layout params Hi Hj). }
  split; [exact Hv|].
  unfold calculateMobiusStripData. rewrite fillPoints_grid.
  eexists. split; [reflexivity|]. cbn [points].
  assert (Hg : gridAt (spec_grid params) i j
               = Some (calculateMobiusPoint u_grid v (radius params))).
  { exact (spec_grid_at params Hi Hj). }
  split; [exact Hg|].
  intros Hu. rewrite Hg, Hv, Hu. reflexivity.
Qed.

(** In binary64, radius 1, width 0.5, resolution 20: the two angles of row 10
    are the same double, and the grid entry [(10, 5)] is vertex 115 of the
    mesh. *)
Lemma mesh_vertex_is_grid_position_witness :
  for_every_Math [] [] (fun num =>
    (10 <= 20 /\ 5 <= 10)
    /\ @mesh_u float num example_params64 10 = @spec_u float num example_params64 10
    /\ exists data,
         @calculateMobiusStripData float num example_params64 = Some data
         /\ gridAt (points data) 10 5
            = vertexAt (@generateMobiusGeometry float num example_params64) 115).
Proof.
  intros fsin fcos _ _.
  assert (Hi : 10 <= resolution example_params64) by (cbn; lia).
  assert (Hj : 5 <= Nat.max 10 (resolution example_params64 / 5)) by (cbn; lia).
  assert (Hu : @mesh_u float (binary64_Number fsin fcos) example_params64 10
               = @spec_u float (binary64_Number fsin fcos) example_params64 10)
    by (vm_compute; reflexivity).
  split; [split; lia|]. split; [exact Hu|].
  destruct (@mesh_vertex_is_grid_position float (binary64_Number fsin fcos)
              example_params64 10 5 Hi Hj) as [_ [data [Hd [_ Heq]]]].
  exists data. split; [exact Hd|]. exact (Heq Hu).
Defined.

(** In binary64, radius 1, width 0.5, resolution 20, row 11: the mesh takes
    the angle [(11 / 20) * pi * 2 = 3.455751918948773], the grid
    [11 * (2 pi / 20) = 3.4557519189487724].  At column 5, where [v = 0], the
    [x] coordinate is the cosine of the angle; with cosines rounded to nearest
    the mesh stores [x = -0.9510565162951535] for vertex [11 * 11 + 5] where
    [calculateMobiusPoint] at the grid's angle, and the grid entry [(11, 5)],
    have [x = -0.9510565162951536]. *)
Lemma mesh_row_11_is_not_grid_row_11 :
  for_every_Math [] cos_row_11 (fun num =>
    @mesh_u float num example_params64 11 = 0x1.ba5614317cb35p+1%float
    /\ @spec_u float num example_params64 11 = 0x1.ba5614317cb34p+1%float
    /\ @spec_v float num example_params64 5 = 0%float
    /\ option_map (@x float)
         (vertexAt (@generateMobiusGeometry float num example_params64) (11 * 11 + 5))
       = Some (-0x1.e6f0e134454ffp-1)%float
    /\ x (@calculateMobiusPoint float num (@spec_u float num example_params64 11)
            (@spec_v float num example_params64 5) (radius example_params64))
       = (-0x1.e6f0e13445500p-1)%float
    /\ match @calculateMobiusStripData float num example_params64 with
       | Some data => option_map (@x float) (gridAt (points data) 11 5)
       | None => None
       end = Some (-0x1.e6f0e13445500p-1)%float).
Proof.
  intros fsin fcos _ Hc.
  pose proof (Hc _ _ (or_introl eq_refl)) as H1.
  pose proof (Hc _ _ (or_intror (or_introl eq_refl))) as H2.
  pose proof (Hc _ _ (or_intror (or_intror (or_introl eq_refl)))) as H3.
  pose proof (Hc _ _ (or_intror (or_intror (or_intror (or_introl eq_refl))))) as H4.
  assert (Hi : 11 <= resolution example_params64) by (cbn; lia).
  assert (Hj : 5 <= spec_vSegments example_params64) by (cbn; lia).
  split; [vm_compute; reflexivity|].
  split; [vm_compute; reflexivity|].
  split; [vm_compute; reflexivity|].
  split; [|split].
  - change (11 * 11 + 5) with (11 * (spec_vSegments example_params64 + 1) + 5).
    rewrite (vertexAt_layout example_params64 Hi Hj).
    vm_compute. rewrite H1, H3. vm_compute. reflexivity.
  - vm_compute. rewrite H2, H4. vm_compute. reflexivity.
  - unfold calculateMobiusStripData. rewrite fillPoints_grid. cbn [points].
    rewrite (spec_grid_at example_params64 Hi Hj).
    vm_compute. rewrite H2, H4. vm_compute. reflexivity.
Qed.

(** * Real arithmetic *)

Local Open Scope R_scope.

(** ** The operations of [R_Number] *)

Lemma lit_0 : Q2R 0 = 0.
Proof. cbv [Q2R Qnum Qden]. lra. Qed.
Lemma lit_2 : Q2R 2 = 2.
Proof. cbv [Q2R Qnum Qden]. lra. Qed.
Lemma lit_0_5 : Q2R 0.5 = 0.5.
Proof. cbv [Q2R Qnum Qden]. lra. Qed.
Lemma lit_0_2 : Q2R 0.2 = 0.2.
Proof. cbv [Q2R Qnum Qden]. lra. Qed.
Lemma lit_0_3 : Q2R 0.3 = 0.3.
Proof. cbv [Q2R Qnum Qden]. lra. Qed.
Lemma lit_0_6 : Q2R 0.6 = 0.6.
Proof. cbv [Q2R Qnum Qden]. lra. Qed.
Lemma lit_0_8 : Q2R 0.8 = 0.8.
Proof. cbv [Q2R Qnum Qden]. lra. Qed.

(** Turns the operations of [R_Number] into those of [R]. *)
Ltac real_ops :=
  cbv [lit ofNat add sub mul div neg
       Math_sqrt Math_abs Math_sin Math_cos Math_PI R_Number];
  rewrite ?lit_0, ?lit_2, ?lit_0_5, ?lit_0_2, ?lit_0_3, ?lit_0_6, ?lit_0_8.

(** ** The sampling angles *)

(** In exact arithmetic the mesh and the grid sample row [i] at the same
    angle; in binary64 the two angles can differ in the last place, as
    they do in row 11 at resolution 20. *)
Lemma mesh_u_real (params : MobiusStripParams R) (i : nat) :
  (1 <= resolution params)%nat -> mesh_u params i = spec_u params i.
Proof.
  intros Hres. unfold mesh_u, spec_u, spec_delta_u. real_ops.
  assert (0 < INR (resolution params)) by (apply lt_0_INR; lia).
  field. lra.
Qed.

(** ** The colours *)

(** Every sampled across-width coordinate lies within half the width. *)
Lemma sample_v_bounds (params : MobiusStripParams R) (j : nat) :
  0 < width params -> (j <= spec_vSegments params)%nat ->
  Rabs (spec_v params j) <= width params / 2.
Proof.
  intros Hw Hj. unfold spec_v. real_ops.
  assert (Hm : 0 < INR (spec_vSegments params)).
  { apply lt_0_INR. unfold spec_vSegments. lia. }
  assert (Hj0 : 0 <= INR j) by apply pos_INR.
  assert (Hjm : INR j <= INR (spec_vSegments params)) by (apply le_INR; exact Hj).
  assert (Hq : 0 <= INR j / INR (spec_vSegments params) <= 1).
  { split.
    - apply Rmult_le_pos; [exact Hj0|]. left. apply Rinv_0_lt_compat. exact Hm.
    - apply (Rmult_le_reg_r (INR (spec_vSegments params))); [exact Hm|].
      unfold Rdiv. rewrite Rmult_assoc, Rinv_l by lra. lra. }
  apply Rabs_le. split; nra.
Qed.

(** C9. In every arithmetic the colour stored for the vertex [(i, j)],
    sampled at across-width coordinate [v], is
    [(0.2 + 0.3 f, 0.8 - 0.2 f, 0.6 + 0.2 f)] with [f = |v| / (width / 2)],
    whatever the row [i].  In binary64 the colour is [(0.2, 0.8, 0.6)] where
    [f] is [0], and where [f] is [1] it is [(0.5, 0.6000000000000001, 0.8)]:
    its green is the double next above [0.6].  For a width in [[0.1, 2]], [f]
    and the three components lie in [[0, 1]]. *)
Theorem mesh_color_gradient :
  (forall (F : Type) (num : Number F) (params : MobiusStripParams F) (i j : nat),
     let n := resolution params in
     let m := Nat.max 10 (n / 5) in
     let g := generateMobiusGeometry params in
     let v := (((ofNat j / ofNat m) - lit 0.5) * width params)%js in
     let f := (Math_abs v / (width params / lit 2))%js in
     (i <= n)%nat -> (j <= m)%nat ->
     colorAt g (i * (m + 1) + j)
     = Some (lit 0.2 + lit 0.3 * f, lit 0.8 - lit 0.2 * f, lit 0.6 + lit 0.2 * f)%js
     /\ (forall i', (i' <= n)%nat ->
           colorAt g (i' * (m + 1) + j) = colorAt g (i * (m + 1) + j)))
  /\ for_every_Math [] [] (fun num =>
       forall (params : MobiusStripParams float) (i j : nat),
         let n := resolution params in
         let m := Nat.max 10 (n / 5) in
         let g := @generateMobiusGeometry float num params in
         let v := (((ofNat j / ofNat m) - lit 0.5) * width params)%js in
         let f := (Math_abs v / (width params / lit 2))%js in
         (i <= n)%nat -> (j <= m)%nat ->
         (f = 0%float ->
          colorAt g (i * (m + 1) + j) = Some (lit 0.2, lit 0.8, lit 0.6))
         /\ (f = 1%float ->
             colorAt g (i * (m + 1) + j)
             = Some (lit 0.5, next_up (lit 0.6), lit 0.8)))
  /\ (forall (params : MobiusStripParams R) (j : nat),
        let m := Nat.max 10 (resolution params / 5) in
        let v := (INR j / INR m - 0.5) * width params in
        let f := Rabs v / (width params / 2) in
        0.1 <= width params <= 2 -> (j <= m)%nat ->
        0 <= f <= 1
        /\ 0 <= 0.2 + 0.3 * f <= 1
        /\ 0 <= 0.8 - 0.2 * f <= 1
        /\ 0 <= 0.6 + 0.2 * f <= 1).
Proof.
  assert (Hgen : forall (F : Type) (num : Number F) (params : MobiusStripParams F)
                        (i j : nat),
            (i <= resolution params)%nat ->
            (j <= Nat.max 10 (resolution params / 5))%nat ->
            colorAt (generateMobiusGeometry params)
                    (i * (Nat.max 10 (resolution params / 5) + 1) + j)
            = Some (spec_color params (spec_v params j))).
  { intros F num params i j Hi Hj. exact (colorAt_layout params Hi Hj). }
  split; [|split].
  - intros F num params i j n m g v f Hi Hj. split.
    + exact (Hgen F num params i j Hi Hj).
    + intros i' Hi'. unfold g, m, n.
      rewrite (Hgen F num params i' j Hi' Hj), (Hgen F num params i j Hi Hj).
      reflexivity.
  - intros fsin fcos _ _ params i j n m g v f Hi Hj.
    pose proof (Hgen float (binary64_Number fsin fcos) params i j Hi Hj) as Hcol.
    unfold spec_color, spec_v in Hcol. fold n m g v f in Hcol.
    change (Math_abs
              (((ofNat j / ofNat (spec_vSegments params)) - lit 0.5) * width params)%js
            / (width params / lit 2))%js with f in Hcol.
    split; intros Hf; rewrite Hcol, Hf; vm_compute; reflexivity.
  - intros params j m v f [Hw _] Hj.
    assert (Hv : Rabs v <= width params / 2).
    { assert (Hw0 : 0 < width params) by lra.
      pose proof (@sample_v_bounds params j Hw0 Hj) as H.
      unfold spec_v in H. revert H. real_ops. intros H. exact H. }
    assert (Hf : 0 <= f <= 1).
    { subst f. split.
      - apply Rmult_le_pos; [apply Rabs_pos|]. left. apply Rinv_0_lt_compat. lra.
      - apply (Rmult_le_reg_r (width params / 2)); [lra|].
        unfold Rdiv at 1. rewrite Rmult_assoc, Rinv_l by lra. lra. }
    repeat split; lra.
Qed.

(** In binary64, radius 1, width 0.5, resolution 20: vertex 0 lies on the
    edge, [f = 1], and vertex 5 on the centre line, [f = 0]; in exact
    arithmetic the width 0.5 is in range. *)
Lemma mesh_color_gradient_witness :
  for_every_Math [] [] (fun num =>
    ((0 <= 20)%nat /\ (0 <= 10)%nat /\ (5 <= 10)%nat)
    /\ (Math_abs (@spec_v float num example_params64 0)
        / (width example_params64 / lit 2))%js = 1%float
    /\ colorAt (@generateMobiusGeometry float num example_params64) 0
       = Some (0.5, 0x1.3333333333334p-1, 0x1.999999999999ap-1)%float
    /\ (Math_abs (@spec_v float num example_params64 5)
        / (width example_params64 / lit 2))%js = 0%float
    /\ colorAt (@generateMobiusGeometry float num example_params64) 5
       = Some (0x1.999999999999ap-3, 0x1.999999999999ap-1, 0x1.3333333333333p-1)%float)
  /\ (0.1 <= width example_params <= 2
      /\ 0 <= Rabs ((INR 3 / INR 10 - 0.5) * width example_params)
              / (width example_params / 2) <= 1).
Proof.
  destruct mesh_color_gradient as [_ [Hfloat Hreal]]. split.
  - intros fsin fcos Hs Hc.
    assert (Hi : (0 <= resolution example_params64)%nat) by (cbn; lia).
    assert (H0 : (0 <= Nat.max 10 (resolution example_params64 / 5))%nat)
      by (cbn; lia).
    assert (H5 : (5 <= Nat.max 10 (resolution example_params64 / 5))%nat)
      by (cbn; lia).
    destruct (Hfloat fsin fcos Hs Hc example_params64 0%nat 0%nat Hi H0)
      as [_ Hedge].
    destruct (Hfloat fsin fcos Hs Hc example_params64 0%nat 5%nat Hi H5)
      as [Hcentre _].
    split; [repeat split; lia|].
    split; [vm_compute; reflexivity|].
    split; [exact (Hedge eq_refl)|].
    split; [vm_compute; reflexivity|].
    exact (Hcentre eq_refl).
  - assert (Hw : 0.1 <= width example_params <= 2) by (cbn; lra).
    assert (Hj : (3 <= Nat.max 10 (resolution example_params / 5))%nat)
      by (cbn; lia).
    split; [exact Hw|].
    exact (proj1 (Hreal example_params 3%nat Hw Hj)).
Defined.

(** In binary64, radius 1, width 0.5, resolution 20: vertex 0 is sampled at
    [v = -0.25 = -width / 2] and its colour is
    [(0.5, 0.6000000000000001, 0.8)], whose green is above the double [0.6].
    With the least positive width, vertex 5 is sampled at [v = 0], where
    [width / 2] is [0] and the three components of the colour are [NaN]. *)
Lemma edge_color_green_above_0_6 :
  for_every_Math [] [] (fun num =>
    (@spec_v float num example_params64 0 = (-0.25)%float
     /\ (width example_params64 / lit 2)%js = 0.25%float
     /\ colorAt (@generateMobiusGeometry float num example_params64) 0
        = Some (0.5, 0x1.3333333333334p-1, 0x1.999999999999ap-1)%float
     /\ @lit float num 0.6 = 0x1.3333333333333p-1%float
     /\ PrimFloat.ltb (@lit float num 0.6) 0x1.3333333333334p-1 = true)
    /\ (@spec_v float num thin_params64 5 = 0%float
        /\ (width thin_params64 / lit 2)%js = 0%float
        /\ colorAt (@generateMobiusGeometry float num thin_params64) 5
           = Some (nan, nan, nan))).
Proof.
  intros fsin fcos _ _. repeat split; vm_compute; reflexivity.
Qed.

(** ** Positivity of the two estimates *)

Lemma for_loop_ge (body : nat -> R -> R) (n i : nat) (s : R) :
  (forall k a, a <= body k a) -> s <= for_loop n i body s.
Proof.
  intros Hbody. revert i s. induction n as [|n IH]; intros i s; cbn [for_loop].
  - lra.
  - apply Rle_trans with (body i s); [apply Hbody|apply IH].
Qed.

Lemma for_loop_gt (body : nat -> R -> R) (n i : nat) (s : R) :
  (0 < n)%nat -> (forall k a, a <= body k a) -> s < body i s ->
  s < for_loop n i body s.
Proof.
  intros Hn Hbody Hfirst. destruct n as [|n]; [lia|]. cbn [for_loop].
  apply Rlt_le_trans with (body i s); [exact Hfirst|apply for_loop_ge, Hbody].
Qed.

Lemma magnitude_nonneg (p : Point3D R) : 0 <= magnitude p.
Proof. unfold magnitude. real_ops. apply sqrt_pos. Qed.

Lemma distance_nonneg (a b : Point3D R) : 0 <= distance a b.
Proof. unfold distance. real_ops. apply sqrt_pos. Qed.

Lemma calculateSurfaceArea_pos (params : MobiusStripParams R) :
  0 < width params -> (1 <= resolution params)%nat ->
  0 < calculateSurfaceArea params.
Proof.
  intros Hw Hn.
  assert (Hm : (10 <= vSegmentsOf (resolution params))%nat)
    by (unfold vSegmentsOf; lia).
  assert (HuStep : 0 < Q2R 2 * PI / INR (resolution params)).
  { rewrite lit_2.
    apply Rdiv_lt_0_compat; [pose proof PI_RGT_0; lra|apply lt_0_INR; lia]. }
  assert (HvStep : 0 < width params / INR (vSegmentsOf (resolution params))).
  { apply Rdiv_lt_0_compat; [exact Hw|apply lt_0_INR; lia]. }
  assert (Hterm : forall p : Point3D R,
             0 <= magnitude p * (Q2R 2 * PI / INR (resolution params))
                  * (width params / INR (vSegmentsOf (resolution params)))).
  { intros p. pose proof (magnitude_nonneg p).
    apply Rmult_le_pos; [apply Rmult_le_pos|]; lra. }
  unfold calculateSurfaceArea, calculatePartialDerivatives, for_range.
  cbv beta iota zeta. rewrite !Nat.sub_0_r.
  cbv [lit ofNat add mul div Math_PI R_Number]. rewrite lit_0.
  apply for_loop_gt.
  - lia.
  - intros i a. apply for_loop_ge. intros j a'. cbv beta.
    match goal with |- _ <= _ + ?t => assert (0 <= t) by apply Hterm end. lra.
  - apply for_loop_gt.
    + lia.
    + intros j a'. cbv beta.
      match goal with |- _ <= _ + ?t => assert (0 <= t) by apply Hterm end. lra.
    + cbv beta. match goal with |- _ < _ + ?t => assert (0 < t) end; [|lra].
      apply Rmult_lt_0_compat; [apply Rmult_lt_0_compat|]; try assumption.
      unfold crossProduct, magnitude.
      cbn [x y z]. real_ops. cbn [INR].
      replace (0 * (2 * PI / INR (resolution params)) / 2) with 0 by lra.
      rewrite Rmult_0_l, sin_0, cos_0.
      replace (0 / INR (vSegmentsOf (resolution params))) with 0 by lra.
      apply sqrt_lt_R0.
      match goal with
      | |- 0 < ?a * ?a + ?b * ?b + ?c * ?c =>
        pose proof (Rle_0_sqr a) as Ha; pose proof (Rle_0_sqr c) as Hc;
        assert (Hb : b = - (width params / 4)) by lra;
        rewrite Hb
      end.
      unfold Rsqr in Ha, Hc. nra.
Qed.

Lemma fold_left_Rplus_ge (l : list R) (acc : R) :
  Forall (fun t => 0 <= t) l -> acc <= fold_left Rplus l acc.
Proof.
  intros Hl. revert acc. induction Hl as [|t l Ht Hl IH]; intros acc; simpl.
  - lra.
  - apply Rle_trans with (acc + t); [lra|apply IH].
Qed.

Lemma first_step_angle (n : nat) :
  (2 <= n)%nat -> 0 < INR 1 * (2 * PI / INR n) / 2 < PI.
Proof.
  intros Hn. pose proof PI_RGT_0 as Hpi.
  assert (Hn2 : 2 <= INR n) by (apply (le_INR 2); exact Hn).
  replace (INR 1 * (2 * PI / INR n) / 2) with (PI / INR n) by (simpl; field; lra).
  split.
  - apply Rdiv_lt_0_compat; lra.
  - apply (Rmult_lt_reg_r (INR n)); [lra|].
    unfold Rdiv. rewrite Rmult_assoc, Rinv_l by lra. nra.
Qed.

Lemma calculateEdgeLength_pos (params : MobiusStripParams R) :
  0 < width params -> (2 <= resolution params)%nat ->
  0 < calculateEdgeLength params.
Proof.
  intros Hw Hn.
  unfold calculateEdgeLength, for_range. cbv zeta.
  remember (resolution params) as n eqn:En.
  eapply Rlt_le_trans.
  2: { apply Req_le. symmetry.
       apply (edge_loop_polyline
                (fun i => calculateMobiusPoint
                            (mul (ofNat i) (div (mul (lit 2) Math_PI) (ofNat n)))
                            (div (width params) (lit 2)) (radius params))). }
  replace (n + 1 - 1)%nat with (S (n - 1)) by lia.
  cbn [seq map]. rewrite segments_cons2. cbn [map fold_left].
  eapply Rlt_le_trans; [|apply fold_left_Rplus_ge].
  - match goal with |- _ < add _ ?d => assert (0 < d) end.
    { unfold distance, calculateMobiusPoint. cbn [x y z]. real_ops.
      apply sqrt_lt_R0.
      replace (0 / 2) with 0 by lra. rewrite sin_0.
      pose proof (sin_gt_0 _ (proj1 (first_step_angle Hn))
                           (proj2 (first_step_angle Hn))) as Hsin.
      match goal with
      | |- 0 < ?a * ?a + ?b * ?b + ?c * ?c =>
        pose proof (Rle_0_sqr a) as Ha; pose proof (Rle_0_sqr b) as Hb;
        assert (Hc : 0 < c)
          by (pose proof (Rmult_lt_0_compat _ _ Hw Hsin); nra)
      end.
      unfold Rsqr in Ha, Hb. nra. }
    revert H. real_ops. lra.
  - apply Forall_forall. intros t Ht. apply in_map_iff in Ht.
    destruct Ht as [[a b] [Ht _]]. subst t. apply distance_nonneg.
Qed.

(** C8. For valid parameters (radius in [[0.5, 5]], width in [[0.1, 2]],
    resolution in [[10, 200]]) both estimates are strictly positive. *)
Theorem estimates_positive :
  forall params : MobiusStripParams R,
    0.5 <= radius params <= 5 ->
    0.1 <= width params <= 2 ->
    (10 <= resolution params <= 200)%nat ->
    0 < calculateSurfaceArea params /\ 0 < calculateEdgeLength params.
Proof.
  intros params _ [Hw _] [Hn _]. split.
  - apply calculateSurfaceArea_pos; [lra|lia].
  - apply calculateEdgeLength_pos; [lra|lia].
Qed.

(** ** The partial derivatives *)

Lemma derivable_pt_lim_eq (f : R -> R) (t l l' : R) :
  l = l' -> derivable_pt_lim f t l -> derivable_pt_lim f t l'.
Proof. intros <-. exact (fun H => H). Qed.

Lemma derivable_pt_lim_half (t : R) : derivable_pt_lim (fun t => t / 2) t (/ 2).
Proof.
  apply derivable_pt_lim_eq with (l := 1 * / 2 + t * 0); [ring|].
  apply (derivable_pt_lim_mult id (fct_cte (/ 2))).
  - apply derivable_pt_lim_id.
  - apply derivable_pt_lim_const.
Qed.

Lemma derivable_pt_lim_cos_half (t : R) :
  derivable_pt_lim (fun t => cos (t / 2)) t (- sin (t / 2) * / 2).
Proof.
  apply (derivable_pt_lim_comp (fun t => t / 2) cos).
  - apply derivable_pt_lim_half.
  - apply derivable_pt_lim_cos.
Qed.

Lemma derivable_pt_lim_sin_half (t : R) :
  derivable_pt_lim (fun t => sin (t / 2)) t (cos (t / 2) * / 2).
Proof.
  apply (derivable_pt_lim_comp (fun t => t / 2) sin).
  - apply derivable_pt_lim_half.
  - apply derivable_pt_lim_sin.
Qed.

(** The radial factor [R + v cos (u / 2)] as a function of [u]. *)
Lemma derivable_pt_lim_radial (v r t : R) :
  derivable_pt_lim (fun t => r + v * cos (t / 2)) t (v * (- sin (t / 2) * / 2)).
Proof.
  apply derivable_pt_lim_eq with (l := 0 + (0 * cos (t / 2) + v * (- sin (t / 2) * / 2))); [ring|].
  apply (derivable_pt_lim_plus (fct_cte r) (fun t => v * cos (t / 2))).
  - apply derivable_pt_lim_const.
  - apply (derivable_pt_lim_mult (fct_cte v) (fun t => cos (t / 2))).
    + apply derivable_pt_lim_const.
    + apply derivable_pt_lim_cos_half.
Qed.

(** X1. [calculatePartialDerivatives] returns the derivatives of
    [calculateMobiusPoint] with respect to [u] and to [v], coordinate by
    coordinate. *)
Lemma calculatePartialDerivatives_derive (u v r : R) :
  let du := fst (calculatePartialDerivatives u v r) in
  let dv := snd (calculatePartialDerivatives u v r) in
  (derivable_pt_lim (fun t => x (calculateMobiusPoint t v r)) u (x du)
   /\ derivable_pt_lim (fun t => y (calculateMobiusPoint t v r)) u (y du)
   /\ derivable_pt_lim (fun t => z (calculateMobiusPoint t v r)) u (z du))
  /\ (derivable_pt_lim (fun t => x (calculateMobiusPoint u t r)) v (x dv)
      /\ derivable_pt_lim (fun t => y (calculateMobiusPoint u t r)) v (y dv)
      /\ derivable_pt_lim (fun t => z (calculateMobiusPoint u t r)) v (z dv)).
Proof.
  unfold calculatePartialDerivatives, calculateMobiusPoint. cbn [fst snd x y z].
  real_ops.
  repeat split.
  - apply derivable_pt_lim_eq with (l := v * (- sin (u / 2) * / 2) * cos u
                   + (r + v * cos (u / 2)) * - sin u); [field|].
    apply (derivable_pt_lim_mult (fun t => r + v * cos (t / 2)) cos).
    + apply derivable_pt_lim_radial.
    + apply derivable_pt_lim_cos.
  - apply derivable_pt_lim_eq with (l := v * (- sin (u / 2) * / 2) * sin u
                   + (r + v * cos (u / 2)) * cos u); [field|].
    apply (derivable_pt_lim_mult (fun t => r + v * cos (t / 2)) sin).
    + apply derivable_pt_lim_radial.
    + apply derivable_pt_lim_sin.
  - apply derivable_pt_lim_eq with (l := 0 * sin (u / 2) + v * (cos (u / 2) * / 2)); [field|].
    apply (derivable_pt_lim_mult (fct_cte v) (fun t => sin (t / 2))).
    + apply derivable_pt_lim_const.
    + apply derivable_pt_lim_sin_half.
  - apply derivable_pt_lim_eq with (l := (0 + (1 * cos (u / 2) + v * 0)) * cos u
                   + (r + v * cos (u / 2)) * 0); [ring|].
    apply (derivable_pt_lim_mult (fun t => r + t * cos (u / 2)) (fct_cte (cos u))).
    + apply (derivable_pt_lim_plus (fct_cte r) (fun t => t * cos (u / 2))).
      * apply derivable_pt_lim_const.
      * apply (derivable_pt_lim_mult id (fct_cte (cos (u / 2)))).
        -- apply derivable_pt_lim_id.
        -- apply derivable_pt_lim_const.
    + apply derivable_pt_lim_const.
  - apply derivable_pt_lim_eq with (l := (0 + (1 * cos (u / 2) + v * 0)) * sin u
                   + (r + v * cos (u / 2)) * 0); [ring|].
    apply (derivable_pt_lim_mult (fun t => r + t * cos (u / 2)) (fct_cte (sin u))).
    + apply (derivable_pt_lim_plus (fct_cte r) (fun t => t * cos (u / 2))).
      * apply derivable_pt_lim_const.
      * apply (derivable_pt_lim_mult id (fct_cte (cos (u / 2)))).
        -- apply derivable_pt_lim_id.
        -- apply derivable_pt_lim_const.
    + apply derivable_pt_lim_const.
  - apply derivable_pt_lim_eq with (l := 1 * sin (u / 2) + v * 0); [ring|].
    apply (derivable_pt_lim_mult id (fct_cte (sin (u / 2)))).
    + apply derivable_pt_lim_id.
    + apply derivable_pt_lim_const.
Qed.

(** ** Sums of real numbers *)

Lemma fold_left_Rplus_acc (l : list R) (acc : R) :
  fold_left Rplus l acc = acc + fold_left Rplus l 0.
Proof.
  revert acc. induction l as [|t l IH]; intros acc; simpl.
  - lra.
  - rewrite IH, (IH (0 + t)). lra.
Qed.

Lemma sum_list_nil : sum_list (@nil R) = 0.
Proof. unfold sum_list. real_ops. reflexivity. Qed.

Lemma sum_list_app (l1 l2 : list R) :
  sum_list (l1 ++ l2) = sum_list l1 + sum_list l2.
Proof.
  unfold sum_list. real_ops. rewrite fold_left_app.
  apply fold_left_Rplus_acc.
Qed.

Lemma sum_list_seq (f : nat -> R) (n : nat) :
  sum_list (map f (seq 0 n)) = big_sum n f.
Proof.
  induction n as [|n IH].
  - apply sum_list_nil.
  - rewrite seq_S, map_app, sum_list_app, IH. cbn [big_sum map Nat.add].
    unfold sum_list. real_ops. simpl. lra.
Qed.

Lemma cells_S (n m : nat) : cells (S n) m = cells n m ++ map (pair n) (seq 0 m).
Proof.
  unfold cells. rewrite seq_S, flat_map_app. simpl. now rewrite app_nil_r.
Qed.

Lemma sum_list_cells (f : nat -> nat -> R) (n m : nat) :
  sum_list (map (fun '(i, j) => f i j) (cells n m))
  = big_sum n (fun i => big_sum m (fun j => f i j)).
Proof.
  induction n as [|n IH].
  - apply sum_list_nil.
  - rewrite cells_S, map_app, sum_list_app, IH, map_map.
    cbn [big_sum]. f_equal. apply sum_list_seq.
Qed.

(** Over the reals the Riemann sum of section 4.3 is the double sum, in any
    order of summation. *)
Lemma spec_surface_area_double_sum (params : MobiusStripParams R) :
  spec_surface_area params
  = big_sum (resolution params) (fun i =>
      big_sum (spec_vSegments params) (fun j =>
        spec_area_element (spec_u params i) (spec_v params j) (radius params)
        * spec_delta_u params * spec_delta_v params)).
Proof.
  unfold spec_surface_area.
  apply (sum_list_cells
           (fun i j => spec_area_element (spec_u params i) (spec_v params j)
                                         (radius params)
                       * spec_delta_u params * spec_delta_v params)).
Qed.

(** * Instances of the theorems at a concrete strip *)

(** In binary64, radius 1, width 0.5, resolution 20: [0 * (2 pi / 20)] is [0],
    so the estimate is the length of the polygon through the 21 samples. *)
Lemma calculateEdgeLength_polyline_witness :
  for_every_Math [] [] (fun num =>
    @spec_u float num example_params64 0 = lit 0
    /\ @calculateEdgeLength float num example_params64
       = @spec_edge_length float num example_params64).
Proof.
  intros fsin fcos _ _.
  assert (H0 : @spec_u float (binary64_Number fsin fcos) example_params64 0
               = @lit float (binary64_Number fsin fcos) 0)
    by (vm_compute; reflexivity).
  split; [exact H0|].
  exact (proj1 (@calculateEdgeLength_polyline float (binary64_Number fsin fcos)
                  example_params64 H0)).
Defined.

(** The first triangle of the mesh of the example strip. *)
Lemma example_triangle :
  In (0, 1, 12)%nat (triangles (indices (generateMobiusGeometry example_params))).
Proof.
  apply in_mesh_triangles. exists 0%nat, 0%nat. cbn. repeat split; try lia.
  left. reflexivity.
Qed.

Lemma generateMobiusGeometry_open_seam_witness :
  ((10 <= resolution example_params)%nat
   /\ In (0, 1, 12)%nat
         (triangles (indices (generateMobiusGeometry example_params))))
  /\ ~ ((exists p, In p (corners (0, 1, 12)%nat) /\ (20 * (10 + 1) <= p)%nat)
        /\ (exists q, In q (corners (0, 1, 12)%nat) /\ (q <= 10)%nat)).
Proof.
  split.
  - split; [cbn; lia|exact example_triangle].
  - apply (@generateMobiusGeometry_open_seam R R_Number example_params);
      [cbn; lia|exact example_triangle].
Defined.

Lemma generateMobiusGeometry_triangles_not_degenerate_witness :
  In (0, 1, 12)%nat (triangles (indices (generateMobiusGeometry example_params)))
  /\ (0 <> 1 /\ 1 <> 12 /\ 0 <> 12)%nat.
Proof.
  split.
  - exact example_triangle.
  - apply (proj2 (@generateMobiusGeometry_triangles_not_degenerate
                    R R_Number example_params (0, 1, 12)%nat example_triangle)).
Defined.

Lemma estimates_positive_witness :
  (0.5 <= radius example_params <= 5
   /\ 0.1 <= width example_params <= 2
   /\ (10 <= resolution example_params <= 200)%nat)
  /\ 0 < calculateSurfaceArea example_params
  /\ 0 < calculateEdgeLength example_params.
Proof.
  split.
  - cbn. repeat split; (lra || lia).
  - apply (@estimates_positive example_params); cbn; (lra || lia).
Defined.

(** * Checks in binary64 *)

Section Binary64.
Variables fsin fcos : float -> float.
Let num64 : Number float := binary64_Number fsin fcos.

Example vSegmentsOf_examples :
  vSegmentsOf 10 = 10%nat /\ vSegmentsOf 20 = 10%nat /\ vSegmentsOf 200 = 40%nat.
Proof. repeat split. Qed.

(** The mesh of the example strip has 231 vertices and 400 triangles; its
    first two triangles are those of cell [(0, 0)]. *)
Example example_mesh_sizes :
  let g := @generateMobiusGeometry float num64 example_params64 in
  (length (vertices g) = 3 * 231 /\ length (colors g) = 3 * 231
   /\ length (indices g) = 3 * 400)%nat
  /\ firstn 2 (triangles (indices g)) = [(0, 1, 12); (0, 12, 11)]%nat.
Proof. vm_compute. repeat split. Qed.

(** The grid of the example strip has 21 rows of 11 points. *)
Example example_grid_sizes :
  option_map (fun g => (length g, map (fun row => option_map (@length _) row) g))
             (@fillPoints float num64 example_params64)
  = Some (21%nat, repeat (Some 11%nat) 21).
Proof. vm_compute. reflexivity. Qed.

(** With [Math.cos 0 = 1] and [Math.sin 0 = 0], as the language requires,
    [position 0 0.25 1] is [(1.25, 0, 0)]. *)
Example position_at_zero :
  fcos 0%float = 1%float -> fsin 0%float = 0%float ->
  @calculateMobiusPoint float num64 0%float 0.25%float 1%float
  = {| x := 1.25%float; y := 0%float; z := 0%float |}.
Proof.
  intros Hcos Hsin. unfold calculateMobiusPoint.
  cbn [lit ofNat add sub mul div Math_sin Math_cos num64 binary64_Number].
  replace (PrimFloat.div 0%float _) with 0%float by (vm_compute; reflexivity).
  rewrite Hcos, Hsin. vm_compute. reflexivity.
Qed.

(** The colour of a vertex on the centre line and of one on the edge: in
    binary64 the green component on the edge is [0.8 - 0.2], one unit in the
    last place above the double nearest to [0.6]. *)
Example example_colors :
  let g := @generateMobiusGeometry float num64 example_params64 in
  colorAt g 5 = Some (@lit float num64 0.2, @lit float num64 0.8, @lit float num64 0.6)
  /\ colorAt g 0 = Some (0.5%float, 0x1.3333333333334p-1%float, @lit float num64 0.8)
  /\ @lit float num64 0.6 = 0x1.3333333333333p-1%float.
Proof. vm_compute. repeat split. Qed.

(** The first sample of the edge, taken at the literal [u = 0], is the sample
    of [i = 0]. *)
Example example_first_sample :
  @spec_u float num64 example_params64 0 = @lit float num64 0.
Proof. vm_compute. reflexivity. Qed.

(** In binary64 the angle [(i / resolution) * pi * 2] of the mesh and the
    angle [i * (2 pi / resolution)] of the grid can differ in the last place. *)
Example example_angles :
  PrimFloat.eqb (@mesh_u float num64 example_params64 11)
                (@spec_u float num64 example_params64 11) = false
  /\ PrimFloat.eqb (@mesh_u float num64 example_params64 10)
                   (@spec_u float num64 example_params64 10) = true.
Proof. vm_compute. split; reflexivity. Qed.

End Binary64.

(** * Further properties of the code *)

(** ** The number of subdivisions across the width *)

(** X18. [Math.max(10, Math.floor(resolution / 5))] is at least 10, stays at 10
    up to resolution 54, is [resolution / 5] from resolution 50 on, and never
    decreases when the resolution grows. *)
Theorem vSegmentsOf_clamp :
  forall n : nat,
    (10 <= vSegmentsOf n)%nat
    /\ (vSegmentsOf n = 10%nat <-> (n < 55)%nat)
    /\ ((50 <= n)%nat -> vSegmentsOf n = (n / 5)%nat)
    /\ (forall n' : nat, (n <= n')%nat -> (vSegmentsOf n <= vSegmentsOf n')%nat).
Proof.
  intros n. unfold vSegmentsOf.
  pose proof (Nat.div_mod_eq n 5) as Hdiv.
  assert (Hmod : (n mod 5 < 5)%nat) by (apply Nat.mod_upper_bound; lia).
  repeat split; try lia.
  intros n' Hle. pose proof (Nat.Div0.div_le_mono n n' 5 Hle). lia.
Qed.

(** ** No angular subdivision *)

(** X19. With [resolution = 0] no loop of the estimators runs: both estimates are
    [0]; the mesh has the 11 vertices of row 0 and no triangle, and the grid
    has the single row 0. *)
Theorem resolution_zero :
  forall (F : Type) (num : Number F) (params : MobiusStripParams F),
    resolution params = 0%nat ->
    calculateSurfaceArea params = lit 0
    /\ calculateEdgeLength params = lit 0
    /\ indices (generateMobiusGeometry params) = []
    /\ length (vertices (generateMobiusGeometry params)) = (3 * 11)%nat
    /\ exists data, calculateMobiusStripData params = Some data
                    /\ length (points data) = 1%nat.
Proof.
  intros F num params H0. repeat split.
  - unfold calculateSurfaceArea. rewrite H0. reflexivity.
  - unfold calculateEdgeLength. rewrite H0. reflexivity.
  - rewrite generateMobiusGeometry_layout. unfold mesh_layout. cbn [indices].
    rewrite H0. reflexivity.
  - rewrite vertices_length. unfold spec_vSegments. rewrite H0. reflexivity.
  - unfold calculateMobiusStripData. rewrite fillPoints_grid.
    eexists. split; [reflexivity|]. cbn [points]. unfold spec_grid.
    rewrite length_map, length_seq, H0. reflexivity.
Qed.

Lemma resolution_zero_witness :
  resolution degenerate_params = 0%nat
  /\ calculateSurfaceArea degenerate_params = lit 0
  /\ calculateEdgeLength degenerate_params = lit 0.
Proof.
  split; [reflexivity|].
  pose proof (@resolution_zero R R_Number degenerate_params eq_refl) as H.
  split; [exact (proj1 H)|exact (proj1 (proj2 H))].
Defined.

(** ** The triangulation *)

Lemma NoDup_flat_map {A B : Type} (f : A -> list B) (l : list A) :
  NoDup l ->
  (forall a, In a l -> NoDup (f a)) ->
  (forall a b x, In a l -> In b l -> In x (f a) -> In x (f b) -> a = b) ->
  NoDup (flat_map f l).
Proof.
  intros Hl. induction Hl as [|a l Ha Hl IH]; intros Hf Hdisj; simpl.
  - constructor.
  - apply NoDup_app.
    + apply Hf. left. reflexivity.
    + apply IH.
      * intros b Hb. apply Hf. right. exact Hb.
      * intros b c y Hb Hc. apply Hdisj; right; assumption.
    + intros y Hy Hy'. apply in_flat_map in Hy'. destruct Hy' as [b [Hb Hyb]].
      apply Ha. rewrite (Hdisj a b y); try assumption.
      * left. reflexivity.
      * right. exact Hb.
Qed.

Lemma NoDup_map_pair (i : nat) (l : list nat) : NoDup l -> NoDup (map (pair i) l).
Proof.
  intros Hl. induction Hl as [|j l Hj Hl IH]; simpl; constructor.
  - intros Hin. apply in_map_iff in Hin. destruct Hin as [j' [Heq Hj']].
    inversion Heq. subst j'. exact (Hj Hj').
  - exact IH.
Qed.

Lemma NoDup_cells (n m : nat) : NoDup (cells n m).
Proof.
  unfold cells. apply NoDup_flat_map.
  - apply seq_NoDup.
  - intros i _. apply NoDup_map_pair, seq_NoDup.
  - intros i i' [a b] _ _ Hi Hi'.
    apply in_map_iff in Hi. destruct Hi as [j [Hi _]].
    apply in_map_iff in Hi'. destruct Hi' as [j' [Hi' _]].
    inversion Hi. inversion Hi'. congruence.
Qed.

(** A vertex number determines its row and column. *)
Lemma row_column_unique (m i j i' j' : nat) :
  (j <= m)%nat -> (j' <= m)%nat ->
  (i * (m + 1) + j = i' * (m + 1) + j')%nat -> i = i' /\ j = j'.
Proof.
  intros Hj Hj' Heq.
  destruct (Nat.lt_trichotomy i i') as [H|[H|H]].
  - assert (((i + 1) * (m + 1) <= i' * (m + 1))%nat)
      by (apply Nat.mul_le_mono_r; lia). lia.
  - subst i'. lia.
  - assert (((i' + 1) * (m + 1) <= i * (m + 1))%nat)
      by (apply Nat.mul_le_mono_r; lia). lia.
Qed.

(** X16. [generateMobiusGeometry] never emits a triangle twice. *)
Theorem generateMobiusGeometry_triangles_NoDup :
  forall (F : Type) (num : Number F) (params : MobiusStripParams F),
    NoDup (triangles (indices (generateMobiusGeometry params))).
Proof.
  intros F num params. rewrite mesh_triangles.
  set (m := spec_vSegments params).
  apply NoDup_flat_map.
  - apply NoDup_cells.
  - intros [i j] _. unfold spec_cell_triangles.
    repeat constructor; cbn [In]; try tauto.
    intros [Heq|[]]. inversion Heq. lia.
  - intros [i j] [i' j'] t Hin Hin' Ht Ht'.
    apply in_cells in Hin. apply in_cells in Hin'.
    unfold spec_cell_triangles in Ht, Ht'. cbn [In] in Ht, Ht'.
    assert (Ha : (i * (m + 1) + j = i' * (m + 1) + j')%nat).
    { destruct Ht as [Ht|[Ht|[]]]; destruct Ht' as [Ht'|[Ht'|[]]];
        subst t; inversion Ht'; reflexivity. }
    destruct (@row_column_unique m i j i' j') as [Hi Hj]; try lia.
    congruence.
Qed.

(** X17. With at least one angular subdivision every stored vertex is a corner
    of some triangle. *)
Theorem generateMobiusGeometry_no_orphan_vertex :
  forall (F : Type) (num : Number F) (params : MobiusStripParams F) (k : nat),
    (1 <= resolution params)%nat ->
    vertexAt (generateMobiusGeometry params) k <> None ->
    exists t, In t (triangles (indices (generateMobiusGeometry params)))
              /\ In k (corners t).
Proof.
  intros F num params k Hn Hk.
  set (n := resolution params) in *. set (m := spec_vSegments params).
  assert (Hm : (10 <= m)%nat) by (unfold m, spec_vSegments; lia).
  assert (Hlt : (k < (n + 1) * (m + 1))%nat).
  { destruct (Nat.lt_ge_cases k ((n + 1) * (m + 1))) as [Hlt|Hge]; [exact Hlt|].
    exfalso. apply Hk. unfold vertexAt. rewrite triple_at_None; [reflexivity|].
    rewrite vertices_length. fold n m. lia. }
  pose proof (Nat.div_mod_eq k (m + 1)) as Hdiv.
  assert (Hj : (k mod (m + 1) < m + 1)%nat) by (apply Nat.mod_upper_bound; lia).
  assert (Hi : (k / (m + 1) < n + 1)%nat)
    by (apply Nat.Div0.div_lt_upper_bound; lia).
  set (i := (k / (m + 1))%nat) in *. set (j := (k mod (m + 1))%nat) in *.
  assert (Hcell : forall i' j' t,
             (i' < n)%nat -> (j' < m)%nat -> In t (spec_cell_triangles m i' j') ->
             In k (corners t) ->
             exists t, In t (triangles (indices (generateMobiusGeometry params)))
                       /\ In k (corners t)).
  { intros i' j' t Hi' Hj' Ht Hkt. exists t. split; [|exact Hkt].
    apply in_mesh_triangles. exists i', j'. fold n m. tauto. }
  destruct (Nat.lt_ge_cases i n) as [Hi'|Hi'];
    destruct (Nat.lt_ge_cases j m) as [Hj'|Hj'].
  - apply (Hcell i j (i * (m + 1) + j, i * (m + 1) + j + 1,
                      i * (m + 1) + j + m + 1 + 1)%nat); try lia.
    + left. reflexivity.
    + left. lia.
  - apply (Hcell i (m - 1)%nat
                 (i * (m + 1) + (m - 1), i * (m + 1) + (m - 1) + 1,
                  i * (m + 1) + (m - 1) + m + 1 + 1)%nat); try lia.
    + left. reflexivity.
    + right. left. lia.
  - apply (Hcell (n - 1)%nat j
                 ((n - 1) * (m + 1) + j, (n - 1) * (m + 1) + j + m + 1 + 1,
                  (n - 1) * (m + 1) + j + m + 1)%nat); try lia.
    + right. left. reflexivity.
    + right. right. left. nia.
  - apply (Hcell (n - 1)%nat (m - 1)%nat
                 ((n - 1) * (m + 1) + (m - 1), (n - 1) * (m + 1) + (m - 1) + 1,
                  (n - 1) * (m + 1) + (m - 1) + m + 1 + 1)%nat); try lia.
    + left. reflexivity.
    + right. right. left. nia.
Qed.

Lemma example_vertex : vertexAt (generateMobiusGeometry example_params) 230 <> None.
Proof.
  change 230%nat with (20 * (spec_vSegments example_params + 1) + 10)%nat.
  rewrite vertexAt_layout; [discriminate|cbn; lia|cbn; lia].
Qed.

Lemma generateMobiusGeometry_no_orphan_vertex_witness :
  ((1 <= resolution example_params)%nat
   /\ vertexAt (generateMobiusGeometry example_params) 230 <> None)
  /\ exists t, In t (triangles (indices (generateMobiusGeometry example_params)))
               /\ In 230%nat (corners t).
Proof.
  split.
  - split; [cbn; lia|exact example_vertex].
  - apply (@generateMobiusGeometry_no_orphan_vertex R R_Number example_params 230);
      [cbn; lia|exact example_vertex].
Defined.

Lemma colors_length {F : Type} {num : Number F} (params : MobiusStripParams F) :
  length (colors (generateMobiusGeometry params))
  = (3 * ((resolution params + 1) * (spec_vSegments params + 1)))%nat.
Proof.
  rewrite generateMobiusGeometry_layout. unfold mesh_layout. cbn [colors].
  rewrite (flat_map_length_const _ (c := 3)).
  - now rewrite cells_length.
  - intros [i j]. destruct (spec_color params (spec_v params j)) as [[r g] b].
    reflexivity.
Qed.

Lemma triple_at_defined {A : Type} (l : list A) (k : nat) :
  triple_at l k <> None <-> (3 * k + 2 < length l)%nat.
Proof.
  split.
  - intros H. destruct (Nat.lt_ge_cases (3 * k + 2) (length l)) as [Hlt|Hge];
      [exact Hlt|]. exfalso. apply H. apply triple_at_None. exact Hge.
  - intros H. unfold triple_at.
    destruct (nth_error l (3 * k)) eqn:E0;
      [|apply nth_error_None in E0; lia].
    destruct (nth_error l (3 * k + 1)) eqn:E1;
      [|apply nth_error_None in E1; lia].
    destruct (nth_error l (3 * k + 2)) eqn:E2;
      [|apply nth_error_None in E2; lia].
    discriminate.
Qed.

(** X15. The colour buffer runs parallel to the vertex buffer: same length, and a
    colour is stored for exactly the vertex numbers that have a position. *)
Theorem generateMobiusGeometry_one_color_per_vertex :
  forall (F : Type) (num : Number F) (params : MobiusStripParams F),
    length (colors (generateMobiusGeometry params))
    = length (vertices (generateMobiusGeometry params))
    /\ forall k, colorAt (generateMobiusGeometry params) k <> None
                 <-> vertexAt (generateMobiusGeometry params) k <> None.
Proof.
  intros F num params.
  assert (Hlen : length (colors (generateMobiusGeometry params))
                 = length (vertices (generateMobiusGeometry params)))
    by (rewrite colors_length, vertices_length; reflexivity).
  split; [exact Hlen|].
  intros k. unfold colorAt, vertexAt.
  rewrite triple_at_defined, Hlen, <- triple_at_defined.
  destruct (triple_at (vertices (generateMobiusGeometry params)) k)
    as [[[a b] c]|]; split; intros H; congruence.
Qed.

(** ** The area element *)

(** The squared length of [dr/du x dr/dv], with the sines and cosines as
    unknowns tied by [s^2 + c^2 = 1]. *)
Lemma area_element_polynomial (r v s c s2 c2 : R) :
  s * s + c * c = 1 -> s2 * s2 + c2 * c2 = 1 ->
  let dux := - (r + v * c2) * s - v / 2 * s2 * c in
  let duy := (r + v * c2) * c - v / 2 * s2 * s in
  let duz := v / 2 * c2 in
  let dvx := c2 * c in
  let dvy := c2 * s in
  let dvz := s2 in
  (duy * dvz - duz * dvy) * (duy * dvz - duz * dvy)
  + (duz * dvx - dux * dvz) * (duz * dvx - dux * dvz)
  + (dux * dvy - duy * dvx) * (dux * dvy - duy * dvx)
  = (r + v * c2) * (r + v * c2) + v / 2 * (v / 2).
Proof.
  intros Hu Hh. cbv zeta.
  transitivity
    (((r + v * c2) * (r + v * c2) * (s * s + c * c)
      + v / 2 * (v / 2) * (s2 * s2 * (s * s + c * c) + c2 * c2))
     * (c2 * c2 * (s * s + c * c) + s2 * s2)
     - (v / 2 * s2 * c2 * (1 - (s * s + c * c)))
       * (v / 2 * s2 * c2 * (1 - (s * s + c * c)))).
  - field.
  - rewrite Hu. replace (c2 * c2 * 1 + s2 * s2) with (s2 * s2 + c2 * c2) by ring.
    replace (s2 * s2 * 1 + c2 * c2) with (s2 * s2 + c2 * c2) by ring.
    rewrite Hh. field.
Qed.

Lemma sin_cos_unit (t : R) : sin t * sin t + cos t * cos t = 1.
Proof. pose proof (sin2_cos2 t) as H. unfold Rsqr in H. exact H. Qed.

Lemma area_element_real (u v r : R) :
  magnitude (crossProduct (fst (calculatePartialDerivatives u v r))
                          (snd (calculatePartialDerivatives u v r)))
  = sqrt ((r + v * cos (u / 2)) * (r + v * cos (u / 2)) + v / 2 * (v / 2)).
Proof.
  unfold calculatePartialDerivatives, crossProduct, magnitude.
  cbn [fst snd x y z]. real_ops. f_equal.
  apply (area_element_polynomial r v (sin_cos_unit u) (sin_cos_unit (u / 2))).
Qed.

Lemma for_loop_bounds (body : nat -> R -> R) (lo hi : R) (n : nat) :
  forall (i : nat) (s : R),
    (forall k a, (i <= k < i + n)%nat -> a + lo <= body k a <= a + hi) ->
    s + INR n * lo <= for_loop n i body s <= s + INR n * hi.
Proof.
  induction n as [|n IH]; intros i s Hbody.
  - cbn [for_loop INR]. lra.
  - cbn [for_loop]. rewrite S_INR.
    pose proof (Hbody i s ltac:(lia)) as Hfirst.
    pose proof (IH (S i) (body i s)
                   (fun k a Hk => Hbody k a ltac:(lia))) as Hrest.
    lra.
Qed.

Lemma Rabs_le_between (a b : R) : Rabs a <= b -> - b <= a <= b.
Proof. unfold Rabs. destruct (Rcase_abs a); lra. Qed.

Lemma area_element_bounds (u v r w : R) :
  0 <= w -> w / 2 <= r -> Rabs v <= w / 2 ->
  r - w / 2
  <= sqrt ((r + v * cos (u / 2)) * (r + v * cos (u / 2)) + v / 2 * (v / 2))
  <= r + 3 * w / 4.
Proof.
  intros Hw Hr Hv. apply Rabs_le_between in Hv.
  pose proof (COS_bound (u / 2)) as Hc.
  set (c := cos (u / 2)) in *.
  assert (Hvc : - (w / 2) <= v * c <= w / 2) by nra.
  assert (Hv2 : v / 2 * (v / 2) <= w * w / 16) by nra.
  pose proof (Rle_0_sqr (v / 2)) as Hv0. unfold Rsqr in Hv0.
  pose proof (Rle_0_sqr (r + v * c)) as Hrho. unfold Rsqr in Hrho.
  split.
  - apply Rsqr_incr_0_var; [|apply sqrt_pos].
    rewrite Rsqr_sqrt by lra. unfold Rsqr. nra.
  - apply Rsqr_incr_0_var; [|lra].
    rewrite Rsqr_sqrt by lra. unfold Rsqr. nra.
Qed.

(** X3. For valid parameters (radius in [[0.5, 5]], width in [[0.1, 2]],
    resolution in [[10, 200]]) of a strip that does not reach its own axis
    ([width / 2 <= radius]) the surface-area estimate lies between
    [2 pi width (radius - width/2)] and [2 pi width (radius + 3 width/4)]. *)
Theorem calculateSurfaceArea_bounds :
  forall params : MobiusStripParams R,
    0.5 <= radius params <= 5 ->
    0.1 <= width params <= 2 ->
    (10 <= resolution params <= 200)%nat ->
    width params / 2 <= radius params ->
    2 * PI * width params * (radius params - width params / 2)
    <= calculateSurfaceArea params
    <= 2 * PI * width params * (radius params + 3 * width params / 4).
Proof.
  intros params _ [Hw01 _] [Hn10 _] Hr.
  assert (Hw : 0 < width params) by lra.
  assert (Hn : (1 <= resolution params)%nat) by lia.
  set (n := resolution params) in *. set (m := vSegmentsOf n).
  set (w := width params) in *. set (r := radius params) in *.
  assert (Hm : (10 <= m)%nat) by (unfold m, vSegmentsOf; lia).
  assert (HnR : 0 < INR n) by (apply lt_0_INR; lia).
  assert (HmR : 0 < INR m) by (apply lt_0_INR; lia).
  set (du := 2 * PI / INR n). set (dv := w / INR m).
  assert (Hdu : 0 < du)
    by (apply Rdiv_lt_0_compat; [pose proof PI_RGT_0; lra|exact HnR]).
  assert (Hdv : 0 < dv) by (apply Rdiv_lt_0_compat; assumption).
  set (lo := (r - w / 2) * du * dv). set (hi := (r + 3 * w / 4) * du * dv).
  assert (Hloops :
            0 + INR n * (INR m * lo) <= calculateSurfaceArea params
            <= 0 + INR n * (INR m * hi)).
  { unfold calculateSurfaceArea, for_range. cbv zeta. rewrite !Nat.sub_0_r.
    fold n m w r. replace (lit 0) with 0 by (symmetry; apply lit_0).
    apply for_loop_bounds. intros i a _.
    cbv beta. apply for_loop_bounds. intros j b Hj. cbv zeta.
    match goal with
    | |- context [calculatePartialDerivatives ?U ?V ?r0] =>
      pose proof (area_element_real U V r0) as E;
      pose proof (@area_element_bounds U V r0 w (Rlt_le _ _ Hw) Hr) as B;
      destruct (calculatePartialDerivatives U V r0) as [pu pv]
    end.
    cbn [fst snd] in E. rewrite E.
    assert (Hv : Rabs (mul (sub (div (ofNat j) (ofNat m)) (lit 0.5)) w) <= w / 2).
    { apply (@sample_v_bounds params j Hw). unfold spec_vSegments. fold n.
      fold (vSegmentsOf n). fold m. lia. }
    specialize (B Hv). revert B. real_ops. fold du dv. intros [B1 B2].
    unfold lo, hi. split.
    - apply Rplus_le_compat_l.
      apply Rmult_le_compat_r; [lra|]. apply Rmult_le_compat_r; [lra|]. exact B1.
    - apply Rplus_le_compat_l.
      apply Rmult_le_compat_r; [lra|]. apply Rmult_le_compat_r; [lra|]. exact B2. }
  replace (2 * PI * w * (r - w / 2)) with (0 + INR n * (INR m * lo))
    by (unfold lo, du, dv; field; lra).
  replace (2 * PI * w * (r + 3 * w / 4)) with (0 + INR n * (INR m * hi))
    by (unfold hi, du, dv; field; lra).
  exact Hloops.
Qed.

Lemma calculateSurfaceArea_bounds_witness :
  (0.5 <= radius example_params <= 5
   /\ 0.1 <= width example_params <= 2
   /\ (10 <= resolution example_params <= 200)%nat
   /\ width example_params / 2 <= radius example_params)
  /\ 2 * PI * 0.5 * (1 - 0.5 / 2) <= calculateSurfaceArea example_params
     <= 2 * PI * 0.5 * (1 + 3 * 0.5 / 4).
Proof.
  split.
  - cbn. repeat split; (lra || lia).
  - apply (@calculateSurfaceArea_bounds example_params); cbn; (lra || lia).
Defined.

(** ** The sampled edge *)





(** ** The parameter form *)

Lemma Int_part_bounds (r : R) : IZR (Int_part r) <= r < IZR (Int_part r) + 1.
Proof. pose proof (base_Int_part r) as H. lra. Qed.

(** X20. For the resolution input the handler hands on an integer that is at
    least 10 whenever the number read is finite: the nearest integer (a tie
    going up) from 9.5 on, and 10 below.  A not-a-number goes through the
    clamp unchanged, and so does plus infinity. *)
Theorem handleInputChange_resolution :
  forall (params : JSObject) (numValue : JSNumber),
    match numValue with
    | JSNaN => handleInputChange params "resolution"%string numValue "resolution"%string
               = Some JSNaN
    | JSPosInf => handleInputChange params "resolution"%string numValue "resolution"%string
                  = Some JSPosInf
    | JSNegInf => handleInputChange params "resolution"%string numValue "resolution"%string
                  = Some (JSFinite 10)
    | JSFinite r =>
      exists n : nat,
        handleInputChange params "resolution"%string numValue "resolution"%string
        = Some (JSFinite (INR n))
        /\ (10 <= n)%nat
        /\ (9.5 <= r -> INR n - / 2 <= r < INR n + / 2)
        /\ (r < 9.5 -> n = 10%nat)
    end.
Proof.
  intros params numValue.
  unfold handleInputChange, set_property. cbv zeta.
  rewrite !String.eqb_refl.
  destruct numValue as [| | |r]; cbn [Math_round Math_max]; try reflexivity.
  pose proof (Int_part_bounds (r + / 2)) as [Hlo Hhi].
  set (z := Int_part (r + / 2)) in *.
  destruct (Z.le_gt_cases 10 z) as [Hz|Hz].
  - exists (Z.to_nat z).
    assert (HzR : 10 <= IZR z) by (apply (IZR_le 10); exact Hz).
    rewrite INR_IZR_INZ, Z2Nat.id by lia.
    rewrite Rmax_right by exact HzR.
    repeat split; try lia; lra.
  - exists 10%nat.
    assert (HzR : IZR z <= 9) by (apply (IZR_le z 9); lia).
    rewrite Rmax_left by lra.
    replace (INR 10) with 10 by (simpl; lra).
    repeat split; try lia; lra.
Qed.

(** ** The scene component *)

Lemma geometryEffect_run {F : Type} {num : Number F}
      (ps : list (MobiusStripParams F)) :
  let s := fold_left (fun s p => geometryEffect p s) ps (initialScene F true) in
  meshMounted s = true
  /\ allocated s = map generateMobiusGeometry ps
  /\ disposed s = seq 0 (length ps - 1)
  /\ geometryRef s = (if length ps =? 0 then None else Some (length ps - 1)%nat)
  /\ meshGeometry s = geometryRef s.
Proof.
  induction ps as [|p ps IH] using rev_ind.
  - cbn. repeat split.
  - rewrite fold_left_app. cbn [fold_left].
    destruct IH as [Hm [Ha [Hd [Hg Hmg]]]].
    set (s := fold_left (fun s p => geometryEffect p s) ps (initialScene F true))
      in *.
    unfold geometryEffect. rewrite Hm. cbn [meshMounted allocated disposed
                                            geometryRef meshGeometry].
    rewrite Ha, Hd, Hg, map_app, !length_app, length_map. cbn [map length].
    replace (length ps + 1 =? 0)%nat with false
      by (symmetry; apply Nat.eqb_neq; lia).
    replace (length ps + 1 - 1)%nat with (length ps) by lia.
    repeat split.
    destruct (length ps) as [|k] eqn:Hlen; cbn [Nat.eqb].
    + reflexivity.
    + replace (S k - 1)%nat with k by lia. rewrite seq_S. reflexivity.
Qed.

(** X21. Running the effect once for each of a series of parameters, with the
    mesh mounted, builds one geometry per run and disposes of every geometry
    but the last, each exactly once and in the order in which they were
    built; the mesh shows the last one, built from the last parameters. *)
Theorem geometryEffect_one_live_geometry :
  forall (F : Type) (num : Number F) (ps : list (MobiusStripParams F))
         (p : MobiusStripParams F),
    let s := fold_left (fun s p => geometryEffect p s) (ps ++ [p])
                       (initialScene F true) in
    length (allocated s) = (length ps + 1)%nat
    /\ disposed s = seq 0 (length ps)
    /\ geometryRef s = Some (length ps)
    /\ meshGeometry s = Some (length ps)
    /\ nth_error (allocated s) (length ps) = Some (generateMobiusGeometry p).
Proof.
  intros F num ps p s.
  destruct (geometryEffect_run (ps ++ [p])) as [_ [Ha [Hd [Hg Hmg]]]].
  fold s in Ha, Hd, Hg, Hmg.
  rewrite length_app in Hd, Hg. cbn [length] in Hd, Hg.
  replace (length ps + 1 - 1)%nat with (length ps) in Hd, Hg by lia.
  replace (length ps + 1 =? 0)%nat with false in Hg
    by (symmetry; apply Nat.eqb_neq; lia).
  repeat split.
  - rewrite Ha, length_map, length_app. reflexivity.
  - exact Hd.
  - exact Hg.
  - rewrite Hmg. exact Hg.
  - rewrite Ha, map_app. cbn [map].
    rewrite <- (length_map generateMobiusGeometry ps). apply nth_error_snoc.
Qed.
